(** * The panel manager context of react-panel-manager-context

    A shallow embedding of [src/index.tsx]: the provider component
    [PanelManagerContextProvider] keeps a registry of open functions, a stack
    of open panels with the executor of each panel's promise, the panel kept
    for the closing transition and the list of panels handed to the container.
    The callbacks [close], [dismiss], [open] and [register] are state
    transformers over that provider state; exceptions are explicit
    completions.  A call of a callback is one transition: the updater it
    passes to [setPanelExecutorStack] is applied to the current stack at
    once, and the effect of lines 110 to 115 is a transition of its own.
    Panel producers are functions of the props they receive. *)

From stdpp Require Import gmap strings list fin_maps.
From Stdlib Require Import ZArith.

(** ** JavaScript values *)

(** The values a panel can pass to [close] and receive as [props].  Numbers
    are the integers and NaN, which is all the truthiness test tells apart;
    an object is its list of fields.  These are plain values: none of them
    is a promise or another object with a [then] method. *)
#[warnings="-register-all"]
Inductive JsValue : Type :=
  | VUndefined
  | VNull
  | VBoolean (b : bool)
  | VNumber (n : Z)
  | VNaN
  | VString (s : string)
  | VObject (fields : list (string * JsValue)).

(** ToBoolean: [undefined], [null], [false], [0], [NaN] and the empty string
    are falsy, everything else is truthy. *)
Definition truthy (v : JsValue) : bool :=
  match v with
  | VUndefined | VNull | VNaN => false
  | VBoolean b => b
  | VNumber n => negb (n =? 0)%Z
  | VString s => negb (String.eqb s "")
  | VObject _ => true
  end.

(** [a || b] *)
Definition js_or (a b : JsValue) : JsValue := if truthy a then a else b.

(** Errors that the callbacks raise: the [Error] built on line 167 and the
    TypeError of a property read on [undefined]. *)
Inductive JsError : Type :=
  | Error (message : string)
  | TypeError.

Inductive Completion (A : Type) : Type :=
  | Return (a : A)
  | Throw (e : JsError).
Arguments Return {A} & a.
Arguments Throw {A} e.

(** ** Panels *)

(** The two callbacks a panel receives.  Both are closures of the provider:
    the close callback is the arrow function [(value) => close(value)] of
    lines 143 and 162, whose only free variable is the provider's [close];
    the dismiss callback is the provider's [dismiss] itself. *)
Inductive ClosePanelFunction : Type := CloseArrow.
Inductive DismissFunction : Type := DismissRef.

(** [ManagedPanel]: the object passed to a panel producer. *)
Record ManagedPanel : Type := mkManagedPanel {
  mp_close : ClosePanelFunction;
  mp_dismiss : DismissFunction;
  mp_props : JsValue
}.

(** [ReactElement<ManagedPanel>]: React keeps an element's key as a string,
    or [null] when none was given. *)
Record ReactElement : Type := mkElement {
  el_type : string;
  el_props : ManagedPanel;
  key : option string
}.

(** [RegisterPanelFunction]: the panel producer handed to [register]. *)
Definition RegisterPanelFunction : Type := ManagedPanel -> ReactElement.

(** A promise is a reference into the heap of promises; the executor of a
    promise is the pair of its [resolve] and [reject], so it is that
    reference too. *)
Abbreviation Promise := nat (only parsing).
Abbreviation PromiseExecutor := nat (only parsing).

Inductive PromiseState : Type :=
  | Pending
  | Fulfilled (value : JsValue)
  | Rejected.

Record PanelExecutor : Type := mkPanelExecutor {
  panel : ReactElement;
  executor : PromiseExecutor
}.

(** [OpenPanelFunction]: the closure
    [(props) => open(panel.key, registerPanelFunction, props)] of line 171.
    [fn_ref] is the identity of the function object, [fn_key] and
    [fn_producer] are the variables it captures. *)
Record OpenPanelFunction : Type := mkOpenPanelFunction {
  fn_ref : nat;
  fn_key : string;
  fn_producer : RegisterPanelFunction
}.

(** The registry is the plain object [{}] of line 103, read and written
    with [panelRegistry[key]].  A plain object inherits the members of
    [Object.prototype], so a read finds them under their names when the
    object has no property of its own there: [constructor] is the global
    [Object], [toString] a function, [__proto__] the prototype itself.  The
    members are those of the language standard. *)
Definition object_prototype_members : list string :=
  ["constructor"; "hasOwnProperty"; "isPrototypeOf"; "propertyIsEnumerable";
   "toLocaleString"; "toString"; "valueOf"; "__proto__";
   "__defineGetter__"; "__defineSetter__"; "__lookupGetter__"; "__lookupSetter__"].

Definition inherited (k : string) : bool :=
  existsb (String.eqb k) object_prototype_members.

(** What a read of the registry can give: an open function that [register]
    stored, or the member of [Object.prototype] of that name.  All of them
    are objects, hence truthy. *)
Inductive RegistryValue : Type :=
  | OpenFn (f : OpenPanelFunction)
  | ObjectMember (name : string).
Coercion OpenFn : OpenPanelFunction >-> RegistryValue.

(** The object with its own properties. *)
Record Registry : Type := mkRegistry {
  own : gmap string RegistryValue
}.

#[global] Instance registry_empty : Empty Registry := mkRegistry ∅.

(** [registry[k]]: the own property, else the inherited member, else
    [undefined]. *)
Definition registry_get (k : string) (registry : Registry) : option RegistryValue :=
  match own registry !! k with
  | Some v => Some v
  | None => if inherited k then Some (ObjectMember k) else None
  end.

#[global] Instance registry_lookup : Lookup string RegistryValue Registry := registry_get.

(** [registry[k] = v]: an own property is overwritten; otherwise the
    object gets a new own property, except under [__proto__], where the
    assignment calls the inherited setter.  [register] assigns there only
    the value it has just read, the prototype the object already has, and
    the setter then changes nothing. *)
Definition registry_set (k : string) (v : RegistryValue) (registry : Registry) : Registry :=
  match own registry !! k with
  | Some _ => mkRegistry (<[k := v]> (own registry))
  | None =>
      if String.eqb k "__proto__" then registry
      else mkRegistry (<[k := v]> (own registry))
  end.

#[global] Instance registry_insert : Insert string RegistryValue Registry := registry_set.

(** What the provider does to the outside, in order: the calls of a promise's
    [resolve] and the calls of a panel producer. *)
Inductive Event : Type :=
  | EvResolve (p : PromiseExecutor) (value : JsValue)
  | EvProduce (producer : RegisterPanelFunction) (arg : ManagedPanel).

(** ** The provider state *)

Record State : Type := mkState {
  panelRegistry : Registry;
  panelExecutorStack : list PanelExecutor;
  closingPanel : option ReactElement;          (* [None] is [undefined] *)
  panels : list (option ReactElement);
  promises : list PromiseState;                (* the promises [open] made *)
  next_ref : nat;                              (* function objects made *)
  trace : list Event
}.

Definition init : State :=
  {| panelRegistry := ∅; panelExecutorStack := []; closingPanel := None;
     panels := []; promises := []; next_ref := 0; trace := [] |}.

Definition setPanelRegistry (r : Registry) (st : State) : State :=
  {| panelRegistry := r; panelExecutorStack := panelExecutorStack st;
     closingPanel := closingPanel st; panels := panels st;
     promises := promises st; next_ref := next_ref st; trace := trace st |}.

Definition setPanelExecutorStack (s : list PanelExecutor) (st : State) : State :=
  {| panelRegistry := panelRegistry st; panelExecutorStack := s;
     closingPanel := closingPanel st; panels := panels st;
     promises := promises st; next_ref := next_ref st; trace := trace st |}.

Definition setClosingPanel (p : option ReactElement) (st : State) : State :=
  {| panelRegistry := panelRegistry st; panelExecutorStack := panelExecutorStack st;
     closingPanel := p; panels := panels st;
     promises := promises st; next_ref := next_ref st; trace := trace st |}.

Definition setPanels (ps : list (option ReactElement)) (st : State) : State :=
  {| panelRegistry := panelRegistry st; panelExecutorStack := panelExecutorStack st;
     closingPanel := closingPanel st; panels := ps;
     promises := promises st; next_ref := next_ref st; trace := trace st |}.

Definition setPromises (ps : list PromiseState) (st : State) : State :=
  {| panelRegistry := panelRegistry st; panelExecutorStack := panelExecutorStack st;
     closingPanel := closingPanel st; panels := panels st;
     promises := ps; next_ref := next_ref st; trace := trace st |}.

Definition setNextRef (n : nat) (st : State) : State :=
  {| panelRegistry := panelRegistry st; panelExecutorStack := panelExecutorStack st;
     closingPanel := closingPanel st; panels := panels st;
     promises := promises st; next_ref := n; trace := trace st |}.

Definition emit (e : Event) (st : State) : State :=
  {| panelRegistry := panelRegistry st; panelExecutorStack := panelExecutorStack st;
     closingPanel := closingPanel st; panels := panels st;
     promises := promises st; next_ref := next_ref st; trace := trace st ++ [e] |}.

(** ** Promises *)

(** [new Promise((resolve, reject) => { executor = { reject, resolve } })]:
    a fresh pending promise; its reference serves as promise and executor. *)
Definition new_promise (st : State) : Promise * State :=
  (length (promises st), setPromises (promises st ++ [Pending]) st).

(** [executor.resolve(value)] for a plain [value]: fulfils a pending
    promise with it, and does nothing to a settled one. *)
Definition settle (p : PromiseExecutor) (value : JsValue) (ps : list PromiseState)
  : list PromiseState :=
  match ps !! p with
  | Some Pending => <[p := Fulfilled value]> ps
  | _ => ps
  end.

Definition resolve (p : PromiseExecutor) (value : JsValue) (st : State) : State :=
  emit (EvResolve p value) (setPromises (settle p value (promises st)) st).

(** ** The callbacks of the provider *)

(** [stack.pop()]: the last element, or [undefined] on an empty array, and
    the array without it. *)
Definition pop {A : Type} (stack : list A) : option A * list A :=
  (last stack, removelast stack).

(** Lines 110 to 115: the panels the effect hands to the container. *)
Definition activePanels (st : State) : list (option ReactElement) :=
  match panelExecutorStack st with
  | [] => [closingPanel st]
  | _ :: _ => map (fun keyExecutor => Some (panel keyExecutor)) (panelExecutorStack st)
  end.

Definition useEffect (st : State) : State := setPanels (activePanels st) st.

(** Lines 117 to 123.  Reading [executor] of the [undefined] that [pop]
    returns on an empty stack is a TypeError: the updater throws before it
    returns a stack, so the state it was applied to is the one given back
    with the exception.  What React does with an updater that throws is
    outside this file. *)
Definition close (result : JsValue) (st : State) : Completion unit * State :=
  match pop (panelExecutorStack st) with
  | (None, _) => (Throw TypeError, st)
  | (Some keyExecutor, stack) =>
      (Return tt,
       setPanelExecutorStack stack
         (resolve (executor keyExecutor) (js_or result VNull) st))
  end.

(** Lines 125 to 130. *)
Definition dismiss (st : State) : Completion unit * State :=
  (Return tt,
   setPanelExecutorStack []
     (foldl (fun s keyExecutor => resolve (executor keyExecutor) VNull s)
            st (panelExecutorStack st))).

(** The object built on lines 142 to 146, and the one of lines 161 to 165. *)
Definition open_props (props : JsValue) : ManagedPanel :=
  {| mp_close := CloseArrow; mp_dismiss := DismissRef; mp_props := props |}.

Definition register_props : ManagedPanel :=
  {| mp_close := CloseArrow; mp_dismiss := DismissRef; mp_props := VObject [] |}.

(** Lines 132 to 155.  The parameter [key] is not used by the body. *)
Definition open (key : string) (registerPanelFunction : RegisterPanelFunction)
    (props : JsValue) (st : State) : Completion Promise * State :=
  let '(result, st1) := new_promise st in
  let panel := registerPanelFunction (open_props props) in
  let st2 := emit (EvProduce registerPanelFunction (open_props props)) st1 in
  let panelExecutor := {| panel := panel; executor := result |} in
  let st3 :=
    match panelExecutorStack st2 with
    | [] => setClosingPanel (Some panel) st2
    | _ :: _ => st2
    end in
  (Return result,
   setPanelExecutorStack (panelExecutorStack st2 ++ [panelExecutor]) st3).

(** [!panel.key]: [null] and the empty string are falsy. *)
Definition key_truthy (k : option string) : bool :=
  match k with
  | None => false
  | Some s => negb (String.eqb s "")
  end.

Definition MissingPanelKeyError : JsError :=
  Error "Panel register requires a ReactElement with a key".

(** Lines 157 to 176.  [panelRegistry[panel.key] || ...] takes what the
    read gives, an own property or an inherited member, and makes a new
    function only when the read gives [undefined]. *)
Definition register (registerPanelFunction : RegisterPanelFunction) (st : State)
  : Completion RegistryValue * State :=
  let panel := registerPanelFunction register_props in
  let st1 := emit (EvProduce registerPanelFunction register_props) st in
  match key panel with
  | Some k =>
      if key_truthy (Some k) then
        let '(openPanelFunction, st2) :=
          match panelRegistry st1 !! k with
          | Some f => (f, st1)
          | None =>
              (OpenFn {| fn_ref := next_ref st1; fn_key := k;
                         fn_producer := registerPanelFunction |},
               setNextRef (S (next_ref st1)) st1)
          end in
        (Return openPanelFunction,
         setPanelRegistry (<[k := openPanelFunction]> (panelRegistry st2)) st2)
      else (Throw MissingPanelKeyError, st1)
  | None => (Throw MissingPanelKeyError, st1)
  end.

(** Calling the function objects. *)
Definition call_open (f : OpenPanelFunction) (props : JsValue) (st : State)
  : Completion Promise * State :=
  open (fn_key f) (fn_producer f) props st.

Definition call_close (c : ClosePanelFunction) (value : JsValue) (st : State)
  : Completion unit * State :=
  match c with CloseArrow => close value st end.

Definition call_dismiss (d : DismissFunction) (st : State) : Completion unit * State :=
  match d with DismissRef => dismiss st end.

(** ** Runs of the provider *)

(** What happens to a provider: calls of [register], of open functions, of
    the close and dismiss callbacks, and runs of the effect.  A run keeps
    the state of each call whether it returned or threw, so the states of
    the runs include those of a provider that stays mounted, whose runs are
    the ones in which no updater throws ([faultless] below). *)
Inductive Action : Type :=
  | ARegister (producer : RegisterPanelFunction)
  | AOpen (f : OpenPanelFunction) (props : JsValue)
  | AClose (c : ClosePanelFunction) (value : JsValue)
  | ADismiss (d : DismissFunction)
  | AEffect.

Definition step (st : State) (a : Action) : State :=
  match a with
  | ARegister p => snd (register p st)
  | AOpen f props => snd (call_open f props st)
  | AClose c v => snd (call_close c v st)
  | ADismiss d => snd (call_dismiss d st)
  | AEffect => useEffect st
  end.

Definition exec (acts : list Action) (st : State) : State := foldl step st acts.

Definition is_open (a : Action) : bool :=
  match a with AOpen _ _ => true | _ => false end.

(** ** Invariants and derived notions *)

(** The loop of line 127, on the heap of promises alone. *)
Definition settle_all (stack : list PanelExecutor) (ps : list PromiseState)
  : list PromiseState :=
  foldl (fun ps keyExecutor => settle (executor keyExecutor) VNull ps) ps stack.

(** The executors of the stack are those of distinct promises. *)
Definition executors_distinct (st : State) : Prop :=
  NoDup (executor <$> panelExecutorStack st).

(** The future of every panel of the stack is pending. *)
Definition futures_pending (st : State) : Prop :=
  Forall (fun keyExecutor => promises st !! executor keyExecutor = Some Pending)
         (panelExecutorStack st).

(** While panels are open, [closingPanel] is the panel of the bottom entry:
    line 149 sets it when a panel is pushed on an empty stack, and nothing
    else sets it. *)
Definition slot_tracks_bottom (st : State) : Prop :=
  match panelExecutorStack st with
  | [] => True
  | bottom :: _ => closingPanel st = Some (panel bottom)
  end.

Definition inv (st : State) : Prop :=
  executors_distinct st ∧ futures_pending st ∧ slot_tracks_bottom st.

(** A run in which no open function is called. *)
Definition no_open (acts : list Action) : bool :=
  forallb (fun a => negb (is_open a)) acts.

(** Whether the close callback handed to the producer of the entry [own]
    settles no promise but the one of [own]. *)
Definition bound_close_settles_own_only (st : State) (own : PanelExecutor)
    (props value : JsValue) : Prop :=
  let st' := snd (call_close (mp_close (open_props props)) value st) in
  ∀ q, promises st' !! q ≠ promises st !! q → q = executor own.

(** Whether [closingPanel] in [st'] is the panel that was on top of the stack
    of [st]. *)
Definition slot_holds_former_top (st st' : State) : Prop :=
  ∃ top, last (panelExecutorStack st) = Some top ∧
         closingPanel st' = Some (panel top).

(** Whether two calls of [register], with a run of the provider between
    them, both return and return the same function object. *)
Definition registers_same_function (producer1 producer2 : RegisterPanelFunction)
    (between : list Action) (st : State) : Prop :=
  ∃ f, fst (register producer1 st) = Return f ∧
       fst (register producer2 (exec between (snd (register producer1 st)))) = Return f.

(** ** Example panels and states *)

Definition panelA : RegisterPanelFunction := fun mp => mkElement "PanelA" mp (Some "a").
Definition panelB : RegisterPanelFunction := fun mp => mkElement "PanelB" mp (Some "b").
Definition panelC : RegisterPanelFunction := fun mp => mkElement "PanelC" mp (Some "c").

(** A second producer for the key of [panelA], a producer that sets no key
    and one that sets the empty key. *)
Definition panelA' : RegisterPanelFunction := fun mp => mkElement "Replacement" mp (Some "a").
Definition panelWithoutKey : RegisterPanelFunction := fun mp => mkElement "Panel" mp None.
Definition panelEmptyKey : RegisterPanelFunction := fun mp => mkElement "Panel" mp (Some "").

(** Two producers that set the key [constructor]. *)
Definition panelConstructor : RegisterPanelFunction :=
  fun mp => mkElement "Panel" mp (Some "constructor").
Definition panelConstructor' : RegisterPanelFunction :=
  fun mp => mkElement "Replacement" mp (Some "constructor").

(** The open functions that registering [panelA] and then [panelB] returns. *)
Definition openA : OpenPanelFunction :=
  {| fn_ref := 0; fn_key := "a"; fn_producer := panelA |}.
Definition openB : OpenPanelFunction :=
  {| fn_ref := 1; fn_key := "b"; fn_producer := panelB |}.

(** A and B registered, A opened, then B opened from inside A. *)
Definition two_open : State :=
  exec [ARegister panelA; ARegister panelB;
        AOpen openA VUndefined; AEffect; AOpen openB VUndefined; AEffect] init.

Definition entryA : PanelExecutor :=
  {| panel := panelA (open_props VUndefined); executor := 0 |}.
Definition entryB : PanelExecutor :=
  {| panel := panelB (open_props VUndefined); executor := 1 |}.

(** The stack of depth 3 made by opening A, B and C in turn. *)
Definition three_open : State :=
  snd (open "c" panelC VUndefined
         (snd (open "b" panelB VUndefined (snd (open "a" panelA VUndefined init))))).

(** ** The rest of the module: position, container, render *)

(** [enum PanelManagerPosition { Left, Right }] *)
Inductive PanelManagerPosition : Type := Left | Right.

(** [PanelManagerContextProps]: [position] is optional. *)
Record PanelManagerContextProps : Type := mkProps {
  position : option PanelManagerPosition
}.

Definition position_eqb (a b : PanelManagerPosition) : bool :=
  match a, b with
  | Left, Left | Right, Right => true
  | _, _ => false
  end.

(** The props of the styled [Container]. *)
Record ContainerProps : Type := mkContainerProps {
  cp_show : bool;
  cp_position : PanelManagerPosition
}.

(** Lines 62 to 87: the style sheet of [Container], as its declarations in
    the order of the template.  An interpolation [cond && `...`] gives its
    block when [cond] holds and [false], which adds nothing, otherwise. *)
Definition Container (props : ContainerProps) : list (string * string) :=
  [("width", "680px"); ("position", "fixed"); ("z-index", "99");
   ("transition", "all 0.2s ease-in-out");
   ("opacity", if cp_show props then "1" else "0.25")]
  ++ (if position_eqb (cp_position props) Left then
        [("box-shadow",
          "3px 1px 4px rgba(0, 0, 0, " +:+ (if cp_show props then "0.15" else "0") +:+ ")");
         ("transform",
          "translateX(" +:+ (if cp_show props then "0" else "-100%") +:+ ")");
         ("height", "100%"); ("top", "0"); ("left", "0")]
      else [])
  ++ (if position_eqb (cp_position props) Right then
        [("box-shadow",
          "-3px 1px 4px rgba(0, 0, 0, " +:+ (if cp_show props then "0.15" else "0") +:+ ")");
         ("transform",
          "translateX(" +:+ (if cp_show props then "0" else "100%") +:+ ")");
         ("height", "100%"); ("top", "0"); ("right", "0")]
      else []).

(** The value a declaration list gives a property: the last one wins. *)
Definition css_value (property : string) (css : list (string * string)) : option string :=
  last (omap (fun d => if String.eqb (fst d) property then Some (snd d) else None) css).

(** The provider's [register] callback, as a function object. *)
Inductive RegisterFunction : Type := RegisterRef.

(** [interface PanelManagerContext]: what the provider provides. *)
Record PanelManagerContext : Type := mkContext {
  ctx_register : RegisterFunction;
  ctx_dismiss : DismissFunction
}.

(** Lines 178 to 187: what the provider renders, the context value it
    provides and the container with its props and children. *)
Record Rendered : Type := mkRendered {
  provided : PanelManagerContext;
  container : ContainerProps;
  children : list (option ReactElement)
}.

Definition PanelManagerContextProvider (props : PanelManagerContextProps) (st : State)
  : Rendered :=
  let position := match position props with Some p => p | None => Right end in
  let value := {| ctx_register := RegisterRef; ctx_dismiss := DismissRef |} in
  {| provided := value;
     container := {| cp_show := negb (length (panelExecutorStack st) =? 0);
                     cp_position := position |};
     children := panels st |}.

(** ** Notions for runs *)

(** The executors on which [resolve] was called, in the order of the calls. *)
Definition resolved (t : list Event) : list nat :=
  omap (fun e => match e with EvResolve p _ => Some p | EvProduce _ _ => None end) t.

(** Every promise was made by [open]; its [resolve] was called, once, or its
    entry is on the stack, and not both.  The ones on the stack are pending,
    the others fulfilled with [null] or a truthy value. *)
Definition heap_inv (st : State) : Prop :=
  NoDup (resolved (trace st) ++ (executor <$> panelExecutorStack st)) ∧
  (∀ q, q < length (promises st) ↔
        q ∈ resolved (trace st) ++ (executor <$> panelExecutorStack st)) ∧
  (∀ q, q ∈ executor <$> panelExecutorStack st → promises st !! q = Some Pending) ∧
  (∀ q, q ∈ resolved (trace st) →
        ∃ v, promises st !! q = Some (Fulfilled v) ∧ (v = VNull ∨ truthy v = true)).

(** The own properties of the registry are open functions, each under the
    non-empty key it captures, which is no member name of [Object.prototype],
    and members of [Object.prototype] under their own names; the function
    objects made so far are the stored ones, each under one key. *)
Definition registry_inv (st : State) : Prop :=
  (∀ k v, own (panelRegistry st) !! k = Some v →
          k ≠ "" ∧
          match v with
          | OpenFn f => fn_key f = k ∧ inherited k = false ∧ fn_ref f < next_ref st
          | ObjectMember name => name = k ∧ inherited k = true
          end) ∧
  (∀ k1 k2 f1 f2,
     own (panelRegistry st) !! k1 = Some (OpenFn f1) →
     own (panelRegistry st) !! k2 = Some (OpenFn f2) →
     fn_ref f1 = fn_ref f2 → k1 = k2) ∧
  (∀ r, r < next_ref st →
        ∃ k f, own (panelRegistry st) !! k = Some (OpenFn f) ∧ fn_ref f = r).

(** [closingPanel] is [undefined] exactly as long as no promise was made. *)
Definition slot_inv (st : State) : Prop :=
  slot_tracks_bottom st ∧ (closingPanel st = None ↔ promises st = []).

(** A run in which no [close] meets an empty stack, so that no updater
    throws: the runs of a provider that stays mounted. *)
Fixpoint faultless (acts : list Action) (st : State) : bool :=
  match acts with
  | [] => true
  | a :: acts =>
      match a, panelExecutorStack st with
      | AClose _ _, [] => false
      | _, _ => faultless acts (step st a)
      end
  end.

(** Calls of open functions, one after the other, and calls of [close]. *)
Definition opens (calls : list (OpenPanelFunction * JsValue)) : list Action :=
  map (fun c => AOpen (fst c) (snd c)) calls.

Definition closes (values : list JsValue) : list Action :=
  map (AClose CloseArrow) values.

(** The entries that [opens calls] pushes when [n] promises exist. *)
Fixpoint new_entries (n : nat) (calls : list (OpenPanelFunction * JsValue))
  : list PanelExecutor :=
  match calls with
  | [] => []
  | c :: calls =>
      {| panel := fn_producer (fst c) (open_props (snd c)); executor := n |}
        :: new_entries (S n) calls
  end.

(** The calls of panel producers recorded in a trace, with their argument,
    and the calls that a run is made of: one per call of [register], with
    the placeholder props, and one per call of an open function. *)
Definition produced (t : list Event) : list (RegisterPanelFunction * ManagedPanel) :=
  omap (fun e => match e with
                 | EvProduce producer arg => Some (producer, arg)
                 | EvResolve _ _ => None
                 end) t.

Definition producer_calls (acts : list Action)
  : list (RegisterPanelFunction * ManagedPanel) :=
  omap (fun a => match a with
                 | ARegister producer => Some (producer, register_props)
                 | AOpen f props => Some (fn_producer f, open_props props)
                 | _ => None
                 end) acts.

(** * Properties *)

(** ** Promises and the stack *)

Lemma length_settle p v ps : length (settle p v ps) = length ps.
Proof.
  unfold settle. destruct (ps !! p) as [[]|]; try done. by rewrite length_insert.
Qed.

Lemma settle_pending p v ps :
  ps !! p = Some Pending → settle p v ps !! p = Some (Fulfilled v).
Proof.
  intros Hp. unfold settle. rewrite Hp.
  apply list_lookup_insert_eq. by eapply lookup_lt_Some.
Qed.

Lemma settle_other p q v ps : p ≠ q → settle p v ps !! q = ps !! q.
Proof.
  intros Hne. unfold settle. destruct (ps !! p) as [[]|]; try done.
  by apply list_lookup_insert_ne.
Qed.

(** A settled promise stays as it is, whichever executor is called. *)
Lemma settle_settled p q v ps :
  ps !! q ≠ Some Pending → settle p v ps !! q = ps !! q.
Proof.
  intros Hq. destruct (decide (p = q)) as [->|Hne]; [|by apply settle_other].
  unfold settle. destruct (ps !! q) as [[]|] eqn:E; congruence.
Qed.

Lemma pop_snoc {A : Type} (l : list A) (x : A) : pop (l ++ [x]) = (Some x, l).
Proof. unfold pop. by rewrite last_snoc, removelast_last. Qed.

Lemma pop_nil {A : Type} : pop (@nil A) = (None, []).
Proof. done. Qed.

Lemma pop_last {A : Type} (l : list A) (x : A) :
  last l = Some x → pop l = (Some x, removelast l) ∧ l = removelast l ++ [x].
Proof.
  intros Hl. split; [unfold pop; by rewrite Hl|].
  destruct l as [|y l] using rev_ind; [done|].
  rewrite last_snoc in Hl. injection Hl as ->. by rewrite removelast_last.
Qed.

(** What [close] does on a stack whose top is [top]. *)
Lemma close_top result st top :
  last (panelExecutorStack st) = Some top →
  close result st =
    (Return tt,
     setPanelExecutorStack (removelast (panelExecutorStack st))
       (resolve (executor top) (js_or result VNull) st)).
Proof.
  intros Hl. unfold close. by destruct (pop_last _ _ Hl) as [-> _].
Qed.

(** ** Closing the top panel *)

(** C8: [close] on an empty stack has no guard: [pop] returns [undefined],
    and reading its [executor] throws a TypeError; the call neither returns
    normally nor raises an [Error] of the provider's own, and the state is
    left as it was. *)
Theorem close_empty_stack_faults (result : JsValue) (st : State) :
  panelExecutorStack st = [] →
  pop (panelExecutorStack st) = (None, []) ∧
  close result st = (Throw TypeError, st) ∧
  fst (close result st) ≠ Return tt ∧
  (∀ message, fst (close result st) ≠ Throw (Error message)).
Proof.
  intros Hempty. unfold close. rewrite Hempty, pop_nil. simpl.
  repeat split; congruence.
Qed.

Lemma close_empty_stack_faults_witness :
  pop (panelExecutorStack init) = (None, []) ∧
  close VUndefined init = (Throw TypeError, init) ∧
  fst (close VUndefined init) ≠ Return tt ∧
  (∀ message, fst (close VUndefined init) ≠ Throw (Error message)).
Proof. apply (close_empty_stack_faults VUndefined init). reflexivity. Defined.

(** C3: on a non-empty stack [close value] calls the top entry's [resolve]
    once, with [value] when it is truthy and with [null] when it is falsy,
    and a pending future is fulfilled with that value.  [close()],
    [close(undefined)], [close(0)] and [close('')] pass [null], which is
    neither the argument nor [undefined]. *)
Theorem close_resolves_top_with_value_or_null (value : JsValue) (st : State)
    (top : PanelExecutor) :
  last (panelExecutorStack st) = Some top →
  let resolved := if truthy value then value else VNull in
  let st' := snd (close value st) in
  fst (close value st) = Return tt ∧
  trace st' = trace st ++ [EvResolve (executor top) resolved] ∧
  (promises st !! executor top = Some Pending →
   promises st' !! executor top = Some (Fulfilled resolved)) ∧
  (truthy value = false → resolved = VNull ∧ resolved ≠ VUndefined) ∧
  Forall (fun falsy =>
            js_or falsy VNull = VNull ∧ js_or falsy VNull ≠ falsy)
         [VUndefined; VNumber 0; VString ""].
Proof.
  intros Htop resolved st'. subst st'. rewrite (close_top _ _ _ Htop). simpl.
  fold (js_or value VNull). change (js_or value VNull) with resolved.
  split; [done|]. split; [done|]. split; [apply settle_pending|].
  split.
  - intros Hf. subst resolved. rewrite Hf. done.
  - repeat constructor; done.
Qed.

Lemma close_resolves_top_with_value_or_null_witness :
  let st := snd (open "a" panelA VUndefined init) in
  let st' := snd (close (VNumber 0) st) in
  last (panelExecutorStack st) = Some entryA ∧
  promises st !! 0 = Some Pending ∧
  fst (close (VNumber 0) st) = Return tt ∧
  trace st' = trace st ++ [EvResolve 0 VNull] ∧
  promises st' !! 0 = Some (Fulfilled VNull).
Proof.
  destruct (close_resolves_top_with_value_or_null (VNumber 0)
              (snd (open "a" panelA VUndefined init)) entryA eq_refl)
    as (Hret & Htrace & Hfulfilled & _).
  split; [reflexivity|]. split; [reflexivity|]. split; [exact Hret|].
  split; [exact Htrace|]. apply Hfulfilled. reflexivity.
Defined.

(** ** Opening two panels *)

Lemma open_unfold key producer props st :
  open key producer props st =
    (Return (length (promises st)),
     {| panelRegistry := panelRegistry st;
        panelExecutorStack :=
          panelExecutorStack st ++
            [{| panel := producer (open_props props);
                executor := length (promises st) |}];
        closingPanel :=
          match panelExecutorStack st with
          | [] => Some (producer (open_props props))
          | _ :: _ => closingPanel st
          end;
        panels := panels st;
        promises := promises st ++ [Pending];
        next_ref := next_ref st;
        trace := trace st ++ [EvProduce producer (open_props props)] |}).
Proof. unfold open. simpl. by destruct (panelExecutorStack st). Qed.

(** C1: from an empty stack, opening A and then B gives a stack of depth 2
    with B on top, both futures pending; [close] then resolves B's future
    with the value (or [null] for a falsy one) and leaves a stack of depth 1
    holding A's entry, whose future is still pending. *)
Theorem open_two_then_close (st : State) (keyA keyB : string)
    (producerA producerB : RegisterPanelFunction) (propsA propsB value : JsValue) :
  panelExecutorStack st = [] →
  let futureA := length (promises st) in
  let futureB := S (length (promises st)) in
  let entryA := {| panel := producerA (open_props propsA); executor := futureA |} in
  let entryB := {| panel := producerB (open_props propsB); executor := futureB |} in
  let st1 := snd (open keyA producerA propsA st) in
  let st2 := snd (open keyB producerB propsB st1) in
  let st3 := snd (close value st2) in
  fst (open keyA producerA propsA st) = Return futureA ∧
  fst (open keyB producerB propsB st1) = Return futureB ∧
  panelExecutorStack st2 = [entryA; entryB] ∧
  length (panelExecutorStack st2) = 2 ∧
  last (panelExecutorStack st2) = Some entryB ∧
  promises st2 !! futureA = Some Pending ∧
  promises st2 !! futureB = Some Pending ∧
  fst (close value st2) = Return tt ∧
  trace st3 = trace st2 ++ [EvResolve futureB (js_or value VNull)] ∧
  promises st3 !! futureB = Some (Fulfilled (js_or value VNull)) ∧
  panelExecutorStack st3 = [entryA] ∧
  length (panelExecutorStack st3) = 1 ∧
  promises st3 !! futureA = Some Pending.
Proof.
  intros Hempty futureA futureB entryA entryB st1 st2 st3.
  assert (Hst2 : panelExecutorStack st2 = [entryA; entryB]).
  { subst st2 st1. rewrite !open_unfold. simpl. rewrite Hempty, length_app. simpl.
    subst entryA entryB futureA futureB. do 3 f_equal. lia. }
  assert (HA : promises st2 !! futureA = Some Pending).
  { subst st2 st1. rewrite !open_unfold. simpl.
    rewrite lookup_app_l by (rewrite length_app; simpl; lia).
    by rewrite lookup_app_r, Nat.sub_diag. }
  assert (HB : promises st2 !! futureB = Some Pending).
  { subst st2 st1. rewrite !open_unfold. simpl.
    rewrite lookup_app_r by (rewrite length_app; simpl; subst futureB; lia).
    rewrite length_app. simpl. subst futureB.
    by replace (S (length (promises st)) - (length (promises st) + 1)) with 0 by lia. }
  assert (Htop : last (panelExecutorStack st2) = Some entryB) by (by rewrite Hst2).
  split; [subst st1; by rewrite open_unfold|].
  split.
  { subst st1. rewrite !open_unfold. simpl. rewrite length_app. simpl.
    subst futureB. f_equal. lia. }
  split; [done|]. split; [by rewrite Hst2|]. split; [done|].
  split; [done|]. split; [done|].
  subst st3. clearbody st2. rewrite (close_top _ _ _ Htop). simpl.
  split; [done|]. split; [done|].
  split; [by apply settle_pending|].
  split; [by rewrite Hst2|]. split; [by rewrite Hst2|].
  rewrite settle_other; [done|]. subst futureA futureB. lia.
Qed.

Lemma open_two_then_close_witness :
  let st2 := snd (open "b" panelB VUndefined (snd (open "a" panelA VUndefined init))) in
  let st3 := snd (close (VBoolean true) st2) in
  length (panelExecutorStack st2) = 2 ∧
  promises st3 !! 1 = Some (Fulfilled (VBoolean true)) ∧
  length (panelExecutorStack st3) = 1 ∧
  promises st3 !! 0 = Some Pending.
Proof.
  pose proof (open_two_then_close init "a" "b" panelA panelB
                VUndefined VUndefined (VBoolean true) eq_refl) as H.
  simpl in H. simpl. tauto.
Defined.

(** ** Dismissing every panel *)

Lemma foldl_resolve stack st :
  foldl (fun s keyExecutor => resolve (executor keyExecutor) VNull s) st stack =
    {| panelRegistry := panelRegistry st;
       panelExecutorStack := panelExecutorStack st;
       closingPanel := closingPanel st;
       panels := panels st;
       promises := settle_all stack (promises st);
       next_ref := next_ref st;
       trace := trace st ++
                map (fun keyExecutor => EvResolve (executor keyExecutor) VNull) stack |}.
Proof.
  revert st. induction stack as [|e stack IH]; intros st; simpl.
  - rewrite app_nil_r. by destruct st.
  - rewrite IH. simpl. by rewrite <- app_assoc.
Qed.

Lemma settle_all_pending stack ps e :
  e ∈ stack → ps !! executor e = Some Pending →
  settle_all stack ps !! executor e = Some (Fulfilled VNull).
Proof.
  assert (Hkeep : ∀ stack ps q v,
             ps !! q = Some (Fulfilled v) → settle_all stack ps !! q = Some (Fulfilled v)).
  { clear. induction stack as [|e stack IH]; intros ps q v Hq; [done|].
    simpl. apply IH. rewrite settle_settled; congruence. }
  revert ps. induction stack as [|e' stack IH]; intros ps Hin Hp.
  - by apply elem_of_nil in Hin.
  - simpl. destruct (decide (executor e' = executor e)) as [Heq|Hne].
    + apply Hkeep. rewrite Heq. by apply settle_pending.
    + apply elem_of_cons in Hin as [->|Hin]; [done|].
      apply IH; [done|]. by rewrite settle_other.
Qed.

Lemma settle_all_other stack ps q :
  q ∉ executor <$> stack → settle_all stack ps !! q = ps !! q.
Proof.
  revert ps. induction stack as [|e stack IH]; intros ps Hq; [done|].
  simpl. rewrite fmap_cons, not_elem_of_cons in Hq. destruct Hq as [Hne Hq].
  rewrite IH by done. by apply settle_other.
Qed.

Lemma dismiss_unfold st :
  dismiss st =
    (Return tt,
     {| panelRegistry := panelRegistry st;
        panelExecutorStack := [];
        closingPanel := closingPanel st;
        panels := panels st;
        promises := settle_all (panelExecutorStack st) (promises st);
        next_ref := next_ref st;
        trace := trace st ++
                 map (fun keyExecutor => EvResolve (executor keyExecutor) VNull)
                     (panelExecutorStack st) |}).
Proof. unfold dismiss. by rewrite foldl_resolve. Qed.

(** C2: [dismiss] calls [resolve] with [null] on every entry of the stack,
    from the bottom entry to the top one, and leaves the stack empty: every
    future of the stack that was pending is fulfilled with [null], no other
    promise changes, and on an empty stack nothing is resolved. *)
Theorem dismiss_resolves_all_with_null (st : State) :
  let st' := snd (dismiss st) in
  fst (dismiss st) = Return tt ∧
  panelExecutorStack st' = [] ∧
  trace st' =
    trace st ++ map (fun keyExecutor => EvResolve (executor keyExecutor) VNull)
                    (panelExecutorStack st) ∧
  (∀ keyExecutor, keyExecutor ∈ panelExecutorStack st →
     promises st !! executor keyExecutor = Some Pending →
     promises st' !! executor keyExecutor = Some (Fulfilled VNull)) ∧
  (∀ q, q ∉ executor <$> panelExecutorStack st →
     promises st' !! q = promises st !! q) ∧
  (panelExecutorStack st = [] → trace st' = trace st ∧ promises st' = promises st).
Proof.
  intros st'. subst st'. rewrite dismiss_unfold. simpl.
  split; [done|]. split; [done|]. split; [done|].
  split; [intros e; apply settle_all_pending|].
  split; [intros q; apply settle_all_other|].
  intros ->. simpl. by rewrite app_nil_r.
Qed.

Lemma dismiss_resolves_all_with_null_witness :
  length (panelExecutorStack three_open) = 3 ∧
  promises three_open = [Pending; Pending; Pending] ∧
  panelExecutorStack (snd (dismiss three_open)) = [] ∧
  promises (snd (dismiss three_open)) !! 0 = Some (Fulfilled VNull) ∧
  promises (snd (dismiss three_open)) !! 1 = Some (Fulfilled VNull) ∧
  promises (snd (dismiss three_open)) !! 2 = Some (Fulfilled VNull) ∧
  trace (snd (dismiss init)) = trace init ∧
  promises (snd (dismiss init)) = promises init.
Proof.
  pose proof (dismiss_resolves_all_with_null three_open) as (_ & Hs & _ & Hp & _).
  pose proof (dismiss_resolves_all_with_null init) as (_ & _ & _ & _ & _ & He).
  split; [reflexivity|]. split; [reflexivity|]. split; [exact Hs|].
  split; [|split; [|split]].
  - apply (Hp (mkPanelExecutor (panelA (open_props VUndefined)) 0));
      [repeat constructor|reflexivity].
  - apply (Hp (mkPanelExecutor (panelB (open_props VUndefined)) 1));
      [repeat constructor|reflexivity].
  - apply (Hp (mkPanelExecutor (panelC (open_props VUndefined)) 2));
      [repeat constructor|reflexivity].
  - apply He. reflexivity.
Defined.

(** ** Invariants of the provider state *)

Lemma close_snoc result st stack top :
  panelExecutorStack st = stack ++ [top] →
  close result st =
    (Return tt,
     {| panelRegistry := panelRegistry st;
        panelExecutorStack := stack;
        closingPanel := closingPanel st;
        panels := panels st;
        promises := settle (executor top) (js_or result VNull) (promises st);
        next_ref := next_ref st;
        trace := trace st ++ [EvResolve (executor top) (js_or result VNull)] |}).
Proof. intros Hs. unfold close. by rewrite Hs, pop_snoc. Qed.

Lemma close_nil result st :
  panelExecutorStack st = [] → close result st = (Throw TypeError, st).
Proof. intros Hs. unfold close. by rewrite Hs. Qed.

Lemma register_stack producer st :
  panelExecutorStack (snd (register producer st)) = panelExecutorStack st ∧
  closingPanel (snd (register producer st)) = closingPanel st ∧
  promises (snd (register producer st)) = promises st.
Proof.
  unfold register. destruct (key (producer register_props)) as [k|]; [|done].
  destruct (key_truthy (Some k)); [|done].
  by destruct (panelRegistry _ !! k).
Qed.

Lemma inv_init : inv init.
Proof. repeat split; [apply NoDup_nil_2|apply Forall_nil_2]. Qed.

Lemma inv_open key producer props st :
  inv st → inv (snd (open key producer props st)).
Proof.
  intros (Hnd & Hp & Hs). rewrite open_unfold.
  unfold inv, executors_distinct, futures_pending, slot_tracks_bottom in *. simpl.
  split; [|split].
  - rewrite fmap_app. apply NoDup_app. split; [done|]. split; [|apply NoDup_singleton].
    intros q Hq Hq'. apply list_elem_of_singleton in Hq'. subst q.
    apply list_elem_of_fmap in Hq as (e & He & Hin).
    rewrite Forall_forall in Hp. specialize (Hp e Hin).
    apply lookup_lt_Some in Hp. simpl in *. lia.
  - apply Forall_app. split.
    + eapply Forall_impl; [exact Hp|]. intros e He. simpl in *.
      rewrite lookup_app_l; [done|]. by eapply lookup_lt_Some.
    + apply Forall_singleton. simpl. by rewrite lookup_app_r, Nat.sub_diag.
  - by destruct (panelExecutorStack st).
Qed.

Lemma inv_close result st : inv st → inv (snd (close result st)).
Proof.
  intros (Hnd & Hp & Hs).
  destruct (panelExecutorStack st) as [|top stack _] eqn:Hstack using rev_ind.
  { by rewrite close_nil. }
  rewrite (close_snoc _ _ _ _ Hstack).
  unfold inv, executors_distinct, futures_pending, slot_tracks_bottom in *.
  rewrite Hstack in *. simpl.
  rewrite fmap_app in Hnd. apply NoDup_app in Hnd as (Hnd & Hfresh & _).
  apply Forall_app in Hp as [Hp _].
  split; [done|]. split.
  - rewrite Forall_forall in Hp |- *. intros e Hin.
    rewrite settle_other; [by apply Hp|].
    intros Heq. apply (Hfresh (executor e)).
    + apply list_elem_of_fmap. eauto.
    + rewrite <- Heq. simpl. apply list_elem_of_singleton. done.
  - by destruct stack.
Qed.

Lemma inv_dismiss st : inv st → inv (snd (dismiss st)).
Proof.
  intros _. rewrite dismiss_unfold. repeat split; [apply NoDup_nil_2|apply Forall_nil_2].
Qed.

Lemma inv_register producer st : inv st → inv (snd (register producer st)).
Proof.
  destruct (register_stack producer st) as (Hs & Hc & Hp).
  unfold inv, executors_distinct, futures_pending, slot_tracks_bottom.
  by rewrite Hs, Hc, Hp.
Qed.

Lemma inv_step st a : inv st → inv (step st a).
Proof.
  destruct a as [producer|f props|[] value|[]|]; simpl.
  - apply inv_register.
  - apply (inv_open (fn_key f)).
  - apply inv_close.
  - apply inv_dismiss.
  - done.
Qed.

Lemma inv_exec acts st : inv st → inv (exec acts st).
Proof.
  revert st. induction acts as [|a acts IH]; intros st Hinv; [done|].
  simpl. apply IH. by apply inv_step.
Qed.

(** Every state the provider reaches satisfies the invariants. *)
Corollary inv_reachable acts : inv (exec acts init).
Proof. apply inv_exec, inv_init. Qed.

(** ** The panels handed to the container *)

(** Without a call of an open function an empty stack stays empty and
    [closingPanel] keeps its value. *)
Lemma no_open_keeps_slot acts st :
  no_open acts = true → panelExecutorStack st = [] →
  panelExecutorStack (exec acts st) = [] ∧
  closingPanel (exec acts st) = closingPanel st.
Proof.
  revert st. induction acts as [|a acts IH]; intros st Hno Hempty; [done|].
  simpl in Hno. apply andb_true_iff in Hno as [Ha Hno]. simpl.
  assert (Hstep : panelExecutorStack (step st a) = [] ∧
                  closingPanel (step st a) = closingPanel st).
  { destruct a as [producer|f props|[] value|[]|]; [| |..].
    - unfold step. destruct (register_stack producer st) as (-> & -> & _). done.
    - done.
    - unfold step, call_close. by rewrite close_nil.
    - unfold step, call_dismiss. by rewrite dismiss_unfold.
    - done. }
  destruct Hstep as [Hs Hc]. destruct (IH _ Hno Hs) as [Hs' Hc'].
  split; [done|]. congruence.
Qed.

Example two_open_stack : panelExecutorStack two_open = [entryA; entryB].
Proof. reflexivity. Qed.

Example two_open_registered :
  fst (register panelA init) = Return openA ∧
  fst (register panelB (snd (register panelA init))) = Return openB.
Proof. split; reflexivity. Qed.

(** C9: with panels open the effect hands over the panel of every entry of
    the stack, bottom to top; with none open it hands over the one-element
    array holding [closingPanel]: the last value set, or [undefined] (no
    element at all) as long as no panel was ever opened. *)
Theorem activePanels_derivation (st : State) :
  panels (useEffect st) = activePanels st ∧
  (panelExecutorStack st ≠ [] →
   activePanels st = map (fun keyExecutor => Some (panel keyExecutor))
                         (panelExecutorStack st) ∧
   length (activePanels st) = length (panelExecutorStack st)) ∧
  (panelExecutorStack st = [] →
   activePanels st = [closingPanel st] ∧
   (∀ element, closingPanel st = Some element → activePanels st = [Some element]) ∧
   (closingPanel st = None → omap id (activePanels st) = [])) ∧
  (∀ acts, no_open acts = true →
   activePanels (exec acts init) = [None] ∧
   omap id (activePanels (exec acts init)) = []).
Proof.
  split; [done|]. split; [|split].
  - intros Hne. unfold activePanels.
    destruct (panelExecutorStack st); [done|]. by rewrite length_map.
  - intros Hempty. unfold activePanels. rewrite Hempty.
    split; [done|]. split; [by intros element ->|by intros ->].
  - intros acts Hno.
    destruct (no_open_keeps_slot acts init Hno eq_refl) as [Hs Hc].
    unfold activePanels. rewrite Hs, Hc. done.
Qed.

Lemma activePanels_derivation_witness :
  activePanels two_open = [Some (panel entryA); Some (panel entryB)] ∧
  activePanels (snd (dismiss two_open)) = [Some (panel entryA)] ∧
  activePanels (exec [ARegister panelA; ADismiss DismissRef; AEffect] init) = [None].
Proof.
  pose proof (activePanels_derivation two_open) as (_ & Hfull & _).
  pose proof (activePanels_derivation (snd (dismiss two_open))) as (_ & _ & Hempty & _).
  pose proof (activePanels_derivation init) as (_ & _ & _ & Hnever).
  split; [|split].
  - apply Hfull. discriminate.
  - apply (Hempty eq_refl). reflexivity.
  - apply (Hnever [ARegister panelA; ADismiss DismissRef; AEffect]). reflexivity.
Defined.

(** ** The panel kept for the closing transition *)

(** C4 fails for [dismiss] at depth 2: with A at the bottom and B on top,
    [closingPanel] is A's panel after [dismiss], not B's. *)
Lemma slot_after_dismiss_is_not_former_top :
  last (panelExecutorStack two_open) = Some entryB ∧
  panelExecutorStack (snd (dismiss two_open)) = [] ∧
  closingPanel (snd (dismiss two_open)) = Some (panel entryA) ∧
  activePanels (snd (dismiss two_open)) = [Some (panel entryA)] ∧
  ¬ slot_holds_former_top two_open (snd (dismiss two_open)).
Proof.
  split; [reflexivity|]. split; [reflexivity|].
  split; [reflexivity|]. split; [reflexivity|].
  intros (top & Htop & Hslot). vm_compute in Htop. injection Htop as <-.
  vm_compute in Hslot. discriminate.
Qed.

(** C4, amended: when the stack becomes empty, by [close] of the last
    remaining entry or by [dismiss] at any depth, [closingPanel] is the panel
    of the entry that was at the bottom of the stack (the top one when it was
    the only entry); the effect hands over that panel until an open function
    is called, and that call replaces it. *)
Theorem slot_holds_bottom_after_emptying (st : State) (bottom : PanelExecutor)
    (rest : list PanelExecutor) :
  slot_tracks_bottom st →
  panelExecutorStack st = bottom :: rest →
  let kept := [Some (panel bottom)] in
  (panelExecutorStack (snd (dismiss st)) = [] ∧
   closingPanel (snd (dismiss st)) = Some (panel bottom) ∧
   ∀ acts, no_open acts = true →
     activePanels (exec acts (snd (dismiss st))) = kept) ∧
  (rest = [] → ∀ value,
     last (panelExecutorStack st) = Some bottom ∧
     panelExecutorStack (snd (close value st)) = [] ∧
     closingPanel (snd (close value st)) = Some (panel bottom) ∧
     ∀ acts, no_open acts = true →
       activePanels (exec acts (snd (close value st))) = kept) ∧
  (∀ st' key producer props, panelExecutorStack st' = [] →
     closingPanel (snd (open key producer props st'))
       = Some (producer (open_props props))).
Proof.
  intros Hslot Hstack kept. unfold slot_tracks_bottom in Hslot.
  rewrite Hstack in Hslot.
  assert (Hkept : ∀ emptied acts,
            panelExecutorStack emptied = [] →
            closingPanel emptied = Some (panel bottom) →
            no_open acts = true → activePanels (exec acts emptied) = kept).
  { intros emptied acts Hs Hc Hno.
    destruct (no_open_keeps_slot acts _ Hno Hs) as [Hs' Hc'].
    unfold activePanels. rewrite Hs', Hc', Hc. done. }
  split; [|split].
  - assert (Hs : panelExecutorStack (snd (dismiss st)) = [])
      by (by rewrite dismiss_unfold).
    assert (Hc : closingPanel (snd (dismiss st)) = Some (panel bottom))
      by (by rewrite dismiss_unfold).
    split; [done|]. split; [done|]. intros acts. by apply Hkept.
  - intros -> value.
    assert (Hclose := close_snoc value st [] bottom Hstack).
    assert (Hs : panelExecutorStack (snd (close value st)) = [])
      by (by rewrite Hclose).
    assert (Hc : closingPanel (snd (close value st)) = Some (panel bottom))
      by (by rewrite Hclose).
    split; [by rewrite Hstack|]. split; [done|]. split; [done|].
    intros acts. by apply Hkept.
  - intros st' key producer props Hempty. rewrite open_unfold. simpl.
    by rewrite Hempty.
Qed.

Lemma slot_holds_bottom_after_emptying_witness :
  slot_tracks_bottom two_open ∧
  panelExecutorStack two_open = [entryA; entryB] ∧
  closingPanel (snd (dismiss two_open)) = Some (panel entryA) ∧
  activePanels (exec [AEffect; ARegister panelC] (snd (dismiss two_open)))
    = [Some (panel entryA)].
Proof.
  pose proof (slot_holds_bottom_after_emptying two_open entryA [entryB]
                eq_refl eq_refl) as ((_ & Hc & Hkept) & _).
  split; [reflexivity|]. split; [reflexivity|]. split; [exact Hc|].
  apply (Hkept [AEffect; ARegister panelC]). reflexivity.
Defined.

(** ** The close callback of a panel *)

(** C5 fails with A below B: the close callback that A's producer received
    pops B and resolves B's future, and A's stays pending. *)
Lemma bound_close_of_lower_panel_resolves_top :
  let st' := snd (call_close (mp_close (open_props VUndefined)) (VBoolean true) two_open) in
  panelExecutorStack two_open = [entryA; entryB] ∧
  trace st' = trace two_open ++ [EvResolve (executor entryB) (VBoolean true)] ∧
  promises st' !! executor entryB = Some (Fulfilled (VBoolean true)) ∧
  promises st' !! executor entryA = Some Pending ∧
  panelExecutorStack st' = [entryA] ∧
  ¬ bound_close_settles_own_only two_open entryA VUndefined (VBoolean true).
Proof.
  repeat (split; [reflexivity|]).
  intros Hown. specialize (Hown 1). vm_compute in Hown.
  assert (H : 1 = 0) by (apply Hown; discriminate). discriminate H.
Qed.

(** C5, amended: the close callback handed to any panel's producer is
    [(value) => close(value)]: it pops the entry on top of the stack and
    resolves the future of that entry and no other.  It resolves the
    panel's own future exactly when the panel is on top; called for a panel
    that is not on top it leaves that panel's future as it is. *)
Theorem bound_close_resolves_top_only (st : State) (i : nat) (own : PanelExecutor)
    (props value : JsValue) :
  executors_distinct st →
  panelExecutorStack st !! i = Some own →
  let st' := snd (call_close (mp_close (open_props props)) value st) in
  ∃ top,
    last (panelExecutorStack st) = Some top ∧
    fst (call_close (mp_close (open_props props)) value st) = Return tt ∧
    panelExecutorStack st' = removelast (panelExecutorStack st) ∧
    trace st' = trace st ++ [EvResolve (executor top) (js_or value VNull)] ∧
    (∀ q, q ≠ executor top → promises st' !! q = promises st !! q) ∧
    (executor own = executor top ↔ S i = length (panelExecutorStack st)) ∧
    (S i ≠ length (panelExecutorStack st) →
     promises st' !! executor own = promises st !! executor own).
Proof.
  intros Hnd Hi st'. subst st'. unfold executors_distinct in Hnd. simpl.
  destruct (panelExecutorStack st) as [|top stack _] eqn:Hstack using rev_ind.
  { by rewrite lookup_nil in Hi. }
  exists top. rewrite (close_snoc _ _ _ _ Hstack). simpl.
  rewrite last_snoc, removelast_last, length_app. simpl.
  rewrite fmap_app in Hnd. apply NoDup_app in Hnd as (_ & Hfresh & _).
  assert (Hiff : executor own = executor top ↔ S i = length stack + 1).
  { split.
    - intros Heq. destruct (decide (i < length stack)) as [Hlt|Hge].
      + exfalso. rewrite lookup_app_l in Hi by done.
        apply (Hfresh (executor own)).
        * apply list_elem_of_fmap. exists own. split; [done|].
          apply list_elem_of_lookup. eauto.
        * rewrite Heq. simpl. by apply list_elem_of_singleton.
      + apply lookup_lt_Some in Hi. rewrite length_app in Hi. simpl in Hi. lia.
    - intros Hlen. assert (i = length stack) as -> by lia.
      rewrite lookup_app_r, Nat.sub_diag in Hi by done. simpl in Hi. congruence. }
  split; [done|]. split; [done|]. split; [done|]. split; [done|].
  split; [intros q Hq; by apply settle_other|].
  split; [done|].
  intros Hlen. apply settle_other. intros Heq. apply Hlen, Hiff. done.
Qed.

Lemma bound_close_resolves_top_only_witness :
  let st' := snd (call_close (mp_close (open_props VUndefined)) VNull two_open) in
  executors_distinct two_open ∧
  panelExecutorStack two_open !! 0 = Some entryA ∧
  promises st' !! executor entryA = promises two_open !! executor entryA.
Proof.
  assert (Hnd : executors_distinct two_open).
  { apply (bool_decide_unpack _). vm_compute. exact I. }
  destruct (bound_close_resolves_top_only two_open 0 entryA VUndefined VNull
              Hnd eq_refl) as (top & _ & _ & _ & _ & _ & _ & Hkeep).
  split; [exact Hnd|]. split; [reflexivity|]. apply Hkeep.
  rewrite two_open_stack. simpl. lia.
Defined.

(** ** The registry *)

Lemma key_truthy_Some k : key_truthy (Some k) = true ↔ k ≠ "".
Proof.
  simpl. rewrite negb_true_iff. apply String.eqb_neq.
Qed.

(** Reading the registry after the assignment of [register], which writes
    what it has read or, when it has read [undefined], a new function. *)
Lemma registry_read_after_write (registry : Registry) k v k' :
  registry !! k = Some v ∨ registry !! k = None →
  (<[k := v]> registry) !! k' = if decide (k' = k) then Some v else registry !! k'.
Proof.
  change (registry_get k registry = Some v ∨ registry_get k registry = None →
          registry_get k' (registry_set k v registry)
            = if decide (k' = k) then Some v else registry_get k' registry).
  unfold registry_get, registry_set. intros Hread.
  destruct (own registry !! k) as [w|] eqn:Hown.
  - simpl. rewrite lookup_insert. repeat case_decide; congruence.
  - destruct (String.eqb k "__proto__") eqn:Hproto.
    + apply String.eqb_eq in Hproto. subst k. simpl in Hread.
      case_decide as Hk; [|done]. subst k'. rewrite Hown. simpl.
      destruct Hread as [Hread|Hread]; congruence.
    + simpl. rewrite lookup_insert. repeat case_decide; congruence.
Qed.

(** A key that [!panel.key] accepts and a read of the registry finds: the
    value read is returned and written back. *)
Lemma register_present producer st k f :
  key (producer register_props) = Some k → k ≠ "" →
  panelRegistry st !! k = Some f →
  register producer st =
    (Return f,
     setPanelRegistry (<[k := f]> (panelRegistry st))
       (emit (EvProduce producer register_props) st)).
Proof.
  intros Hk Hne Hf. unfold register. rewrite Hk.
  apply key_truthy_Some in Hne. rewrite Hne. simpl. by rewrite Hf.
Qed.

(** A key for which the read gives [undefined]: a new function object is
    made, closed over the key and the producer, and stored. *)
Lemma register_absent producer st k :
  key (producer register_props) = Some k → k ≠ "" →
  panelRegistry st !! k = None →
  let f := {| fn_ref := next_ref st; fn_key := k; fn_producer := producer |} in
  register producer st =
    (Return (OpenFn f),
     {| panelRegistry := <[k := OpenFn f]> (panelRegistry st);
        panelExecutorStack := panelExecutorStack st;
        closingPanel := closingPanel st;
        panels := panels st;
        promises := promises st;
        next_ref := S (next_ref st);
        trace := trace st ++ [EvProduce producer register_props] |}).
Proof.
  intros Hk Hne Hf. unfold register. rewrite Hk.
  apply key_truthy_Some in Hne. rewrite Hne. simpl. by rewrite Hf.
Qed.

(** A key that [!panel.key] rejects: none, or the empty string. *)
Lemma register_falsy_key producer st :
  key_truthy (key (producer register_props)) = false →
  register producer st =
    (Throw MissingPanelKeyError, emit (EvProduce producer register_props) st).
Proof.
  intros Hk. unfold register.
  destruct (key (producer register_props)) as [k|]; [|done]. by rewrite Hk.
Qed.

(** Whatever it does, [register] ends with a registry that gives what it
    returns under the key. *)
Lemma register_returns producer st k :
  key (producer register_props) = Some k → k ≠ "" →
  ∃ f, fst (register producer st) = Return f ∧
       panelRegistry (snd (register producer st)) !! k = Some f ∧
       (panelRegistry st !! k = None →
        f = OpenFn {| fn_ref := next_ref st; fn_key := k; fn_producer := producer |}).
Proof.
  intros Hk Hne. destruct (panelRegistry st !! k) as [f|] eqn:Hf.
  - exists f. rewrite (register_present _ _ _ _ Hk Hne Hf). simpl.
    split; [done|]. split; [|done].
    rewrite registry_read_after_write by auto. by case_decide.
  - eexists. rewrite (register_absent _ _ _ Hk Hne Hf). simpl.
    split; [done|]. split; [|done].
    rewrite registry_read_after_write by auto. by case_decide.
Qed.

(** Nothing removes or replaces what a read of the registry gives. *)
Lemma registry_step_stable st a k f :
  panelRegistry st !! k = Some f → panelRegistry (step st a) !! k = Some f.
Proof.
  intros Hf. destruct a as [producer|g props|[] value|[]|]; unfold step.
  - destruct (key_truthy (key (producer register_props))) eqn:Htruthy.
    2: { by rewrite register_falsy_key. }
    destruct (key (producer register_props)) as [k'|] eqn:Hk; [|done].
    apply key_truthy_Some in Htruthy.
    destruct (panelRegistry st !! k') as [f'|] eqn:Hf'.
    + rewrite (register_present _ _ _ _ Hk Htruthy Hf'). simpl.
      rewrite registry_read_after_write by auto. case_decide; congruence.
    + rewrite (register_absent _ _ _ Hk Htruthy Hf'). simpl.
      rewrite registry_read_after_write by auto. case_decide; congruence.
  - unfold call_open. by rewrite open_unfold.
  - unfold call_close, close.
    by destruct (pop (panelExecutorStack st)) as [[top|] stack].
  - unfold call_dismiss. by rewrite dismiss_unfold.
  - done.
Qed.

Lemma registry_exec_stable acts st k f :
  panelRegistry st !! k = Some f → panelRegistry (exec acts st) !! k = Some f.
Proof.
  revert st. induction acts as [|a acts IH]; intros st Hf; [done|].
  simpl. apply IH. by apply registry_step_stable.
Qed.

(** C7: when the element that the producer returns for the placeholder
    props has no key, [register] throws the error of line 167 before it
    touches the registry: the registry is the one it was. *)
Theorem register_without_key_throws (producer : RegisterPanelFunction) (st : State) :
  key (producer register_props) = None →
  fst (register producer st) =
    Throw (Error "Panel register requires a ReactElement with a key") ∧
  panelRegistry (snd (register producer st)) = panelRegistry st ∧
  snd (register producer st) = emit (EvProduce producer register_props) st.
Proof.
  intros Hk. rewrite register_falsy_key by (by rewrite Hk). done.
Qed.

Lemma register_without_key_throws_witness :
  fst (register panelWithoutKey two_open) =
    Throw (Error "Panel register requires a ReactElement with a key") ∧
  panelRegistry (snd (register panelWithoutKey two_open)) = panelRegistry two_open ∧
  snd (register panelWithoutKey two_open)
    = emit (EvProduce panelWithoutKey register_props) two_open.
Proof. apply (register_without_key_throws panelWithoutKey two_open). reflexivity. Defined.

(** C6 fails for the empty key: [!panel.key] is true for the empty string,
    so both calls throw and no open function is returned. *)
Lemma register_empty_key_returns_nothing :
  key (panelEmptyKey register_props) = Some "" ∧
  fst (register panelEmptyKey init) = Throw MissingPanelKeyError ∧
  ¬ registers_same_function panelEmptyKey panelEmptyKey [] init.
Proof.
  split; [reflexivity|]. split; [reflexivity|].
  intros (f & Hf & _). vm_compute in Hf. discriminate Hf.
Qed.

(** C6, amended: for every key other than the empty string, two calls of
    [register] whose producers return an element with that key return the
    same function object, whatever the provider does between them. *)
Theorem register_twice_same_function (k : string)
    (producer1 producer2 : RegisterPanelFunction) (between : list Action) (st : State) :
  k ≠ "" →
  key (producer1 register_props) = Some k →
  key (producer2 register_props) = Some k →
  registers_same_function producer1 producer2 between st ∧
  ∃ f, fst (register producer1 st) = Return f ∧
       panelRegistry (exec between (snd (register producer1 st))) !! k = Some f ∧
       panelRegistry (snd (register producer2 (exec between (snd (register producer1 st)))))
         !! k = Some f.
Proof.
  intros Hne Hk1 Hk2.
  destruct (register_returns producer1 st k Hk1 Hne) as (f & Hret & Hf & _).
  pose proof (registry_exec_stable between _ _ _ Hf) as Hf'.
  pose proof (register_present producer2 _ k f Hk2 Hne Hf') as Hsecond.
  split; exists f; rewrite Hsecond; simpl; [done|].
  split; [done|]. split; [done|].
  rewrite registry_read_after_write by auto. by case_decide.
Qed.

Lemma register_twice_same_function_witness :
  fst (register panelA init) = Return openA ∧
  fst (register (fun mp => mkElement "Other" mp (Some "a"))
         (exec [AOpen openA VNull; ARegister panelB; ADismiss DismissRef]
               (snd (register panelA init))))
    = Return openA.
Proof.
  destruct (register_twice_same_function "a" panelA
              (fun mp => mkElement "Other" mp (Some "a"))
              [AOpen openA VNull; ARegister panelB; ADismiss DismissRef] init)
    as [(f & H1 & H2) _]; [discriminate|reflexivity|reflexivity|].
  assert (Return f = Return openA) as [= ->] by (rewrite <- H1; reflexivity).
  split; [reflexivity|exact H2].
Defined.

(** A call of [register] that returns was made with a key that
    [!panel.key] accepts. *)
Lemma register_returned_key producer st k f :
  key (producer register_props) = Some k →
  fst (register producer st) = Return f → k ≠ "".
Proof.
  intros Hk Hret Hempty. subst k.
  rewrite register_falsy_key in Hret by (by rewrite Hk). discriminate Hret.
Qed.

(** C10 at the key [constructor], a member name of [Object.prototype]: the
    first [register] reads the inherited global [Object] from the empty
    registry, stores and returns it, and makes no function.  The key is then
    present, and a second [register] returns the same [Object]: what it
    returns is no open function and is closed over no producer. *)
Theorem register_inherited_key_returns_member :
  let st1 := snd (register panelConstructor init) in
  let st2 := snd (register panelConstructor' st1) in
  key (panelConstructor register_props) = Some "constructor" ∧
  key (panelConstructor' register_props) = Some "constructor" ∧
  fst (register panelConstructor init) = Return (ObjectMember "constructor") ∧
  own (panelRegistry st1) !! "constructor" = Some (ObjectMember "constructor") ∧
  fst (register panelConstructor' st1) = Return (ObjectMember "constructor") ∧
  next_ref st2 = 0 ∧
  (∀ f : OpenPanelFunction, fst (register panelConstructor' st1) ≠ Return (OpenFn f)).
Proof.
  repeat (split; [reflexivity|]). intros f Hf. vm_compute in Hf. discriminate Hf.
Qed.

Lemma registry_write_own (registry : Registry) k v :
  own registry !! k = Some v → <[k := v]> registry = registry.
Proof.
  intros Hown. change (registry_set k v registry = registry).
  unfold registry_set. rewrite Hown. destruct registry as [o]. simpl in *.
  by rewrite insert_id.
Qed.

Lemma registry_read_open_fn (registry : Registry) k f :
  registry !! k = Some (OpenFn f) → own registry !! k = Some (OpenFn f).
Proof.
  change (registry_get k registry = Some (OpenFn f) → own registry !! k = Some (OpenFn f)).
  unfold registry_get. destruct (own registry !! k); [done|].
  destruct (inherited k); discriminate.
Qed.

(** X15: let a first registration, under a key for which the read of the
    registry gave [undefined], return the function [f].  A later [register]
    whose producer returns an element with the same key calls the new
    producer once, for the key, leaves the registry as it is and returns
    [f].  [f] is closed over the first producer: each call of it produces
    the pushed panel with the first producer, and the later producer is not
    called. *)
Theorem reregister_keeps_first_producer (k : string)
    (producer1 producer2 : RegisterPanelFunction) (f : OpenPanelFunction)
    (between : list Action) (st : State) :
  panelRegistry st !! k = None →
  key (producer1 register_props) = Some k →
  fst (register producer1 st) = Return (OpenFn f) →
  key (producer2 register_props) = Some k →
  let st1 := snd (register producer1 st) in
  let st2 := exec between st1 in
  let st3 := snd (register producer2 st2) in
  fn_producer f = producer1 ∧
  panelRegistry st2 !! k = Some (OpenFn f) ∧
  fst (register producer2 st2) = Return (OpenFn f) ∧
  trace st3 = trace st2 ++ [EvProduce producer2 register_props] ∧
  panelRegistry st3 = panelRegistry st2 ∧
  panelExecutorStack st3 = panelExecutorStack st2 ∧
  (∀ s props,
     let s' := snd (call_open f props s) in
     fst (call_open f props s) = Return (length (promises s)) ∧
     panelExecutorStack s' =
       panelExecutorStack s ++
         [{| panel := producer1 (open_props props);
             executor := length (promises s) |}] ∧
     trace s' = trace s ++ [EvProduce producer1 (open_props props)]).
Proof.
  intros Hfresh Hk1 Hret1 Hk2 st1 st2 st3.
  pose proof (register_returned_key _ _ _ _ Hk1 Hret1) as Hne.
  destruct (register_returns producer1 st k Hk1 Hne) as (f' & Hret & Hf & Hprod).
  assert (f' = OpenFn f) as -> by congruence.
  specialize (Hprod Hfresh). injection Hprod as Hprod.
  pose proof (registry_exec_stable between _ _ _ Hf) as Hf'.
  pose proof (register_present producer2 _ k _ Hk2 Hne Hf') as Hsecond.
  subst st3 st2 st1. rewrite Hsecond.
  cbn [fst snd emit trace panelRegistry panelExecutorStack setPanelRegistry].
  split; [by rewrite Hprod|]. split; [done|]. split; [done|]. split; [done|].
  split; [by apply registry_write_own, registry_read_open_fn|]. split; [done|].
  intros s props. unfold call_open. rewrite open_unfold, Hprod. done.
Qed.

Lemma reregister_keeps_first_producer_witness :
  let st2 := exec [AOpen openA VNull; AClose CloseArrow VNull] (snd (register panelA init)) in
  fst (register panelA' st2) = Return (OpenFn openA) ∧
  panelRegistry (snd (register panelA' st2)) = panelRegistry st2 ∧
  panelExecutorStack (snd (call_open openA VNull (snd (register panelA' st2))))
    = [{| panel := panelA (open_props VNull); executor := 1 |}].
Proof.
  destruct (reregister_keeps_first_producer "a" panelA panelA' openA
              [AOpen openA VNull; AClose CloseArrow VNull] init
              eq_refl eq_refl eq_refl eq_refl)
    as (_ & _ & H2 & _ & Hreg & _ & Hopen).
  split; [exact H2|]. split; [exact Hreg|].
  destruct (Hopen (snd (register panelA'
                          (exec [AOpen openA VNull; AClose CloseArrow VNull]
                                (snd (register panelA init))))) VNull)
    as (_ & Hpush & _).
  exact Hpush.
Defined.

(** ** A run of the README's basic usage *)

(** Register a panel, open it, let it call [close(true)]: the promise of the
    first call is fulfilled with [true]; a second call of the same open
    function makes a new promise, which is pending. *)
Example confirm_scenario :
  let st1 := exec [ARegister panelA; AOpen openA VUndefined; AEffect;
                   AClose (mp_close (open_props VUndefined)) (VBoolean true);
                   AEffect] init in
  let st2 := exec [AOpen openA VUndefined; AEffect] st1 in
  promises st1 = [Fulfilled (VBoolean true)] ∧
  panels st1 = [Some (panelA (open_props VUndefined))] ∧
  promises st2 = [Fulfilled (VBoolean true); Pending] ∧
  panelExecutorStack st2 =
    [{| panel := panelA (open_props VUndefined); executor := 1 |}].
Proof. repeat split; reflexivity. Qed.

(** ** Promises over whole runs *)

Lemma resolved_app t1 t2 : resolved (t1 ++ t2) = resolved t1 ++ resolved t2.
Proof. apply omap_app. Qed.

Lemma resolved_stack (stack : list PanelExecutor) :
  resolved (map (fun keyExecutor => EvResolve (executor keyExecutor) VNull) stack)
    = executor <$> stack.
Proof. induction stack as [|e stack IH]; [done|]. simpl. by f_equal. Qed.

Lemma length_settle_all stack ps : length (settle_all stack ps) = length ps.
Proof.
  revert ps. induction stack as [|e stack IH]; intros ps; [done|].
  simpl. by rewrite IH, length_settle.
Qed.

Lemma js_or_null v : js_or v VNull = VNull ∨ truthy (js_or v VNull) = true.
Proof. unfold js_or. destruct (truthy v) eqn:Hv; [by right|by left]. Qed.

Lemma register_trace producer st :
  trace (snd (register producer st)) = trace st ++ [EvProduce producer register_props] ∧
  panels (snd (register producer st)) = panels st.
Proof.
  unfold register. destruct (key (producer register_props)) as [k|]; [|done].
  destruct (key_truthy (Some k)); [|done].
  by destruct (panelRegistry _ !! k).
Qed.

Lemma heap_inv_init : heap_inv init.
Proof.
  repeat split; simpl; try (intros; lia); try set_solver. apply NoDup_nil_2.
Qed.

Lemma heap_inv_open key producer props st :
  heap_inv st → heap_inv (snd (open key producer props st)).
Proof.
  intros (Hnd & Hlen & Hpend & Hres). rewrite open_unfold.
  unfold heap_inv. simpl. rewrite resolved_app, fmap_app. simpl.
  rewrite app_nil_r.
  assert (Hfresh : length (promises st) ∉
                   resolved (trace st) ++ (executor <$> panelExecutorStack st)).
  { intros Hin. apply Hlen in Hin. lia. }
  split; [|split; [|split]].
  - rewrite app_assoc. apply NoDup_app. split; [done|].
    split; [|apply NoDup_singleton].
    intros q Hq Hq'. apply list_elem_of_singleton in Hq'. by subst q.
  - intros q. rewrite length_app. simpl. rewrite app_assoc, elem_of_app, <- Hlen.
    rewrite list_elem_of_singleton. lia.
  - intros q Hq. apply elem_of_app in Hq as [Hq|Hq].
    + rewrite lookup_app_l; [by apply Hpend|].
      apply Hlen, elem_of_app. by right.
    + apply list_elem_of_singleton in Hq. subst q.
      by rewrite lookup_app_r, Nat.sub_diag.
  - intros q Hq. destruct (Hres q Hq) as (v & Hv & Hok). exists v.
    split; [|done]. rewrite lookup_app_l; [done|]. by eapply lookup_lt_Some.
Qed.

Lemma heap_inv_close result st : heap_inv st → heap_inv (snd (close result st)).
Proof.
  destruct (panelExecutorStack st) as [|top stack _] eqn:Hstack using rev_ind.
  { by rewrite close_nil. }
  rewrite (close_snoc _ _ _ _ Hstack). unfold heap_inv.
  rewrite Hstack. intros (Hnd & Hlen & Hpend & Hres). simpl.
  rewrite resolved_app. simpl. rewrite fmap_app in *. simpl in *.
  set (t := executor top) in *.
  set (R := resolved (trace st)) in *. set (E := executor <$> stack) in *.
  clearbody t R E.
  assert (Hperm : (R ++ [t]) ++ E ≡ₚ R ++ E ++ [t]).
  { rewrite <- app_assoc. apply Permutation_app_head, Permutation_app_comm. }
  assert (HtR : (t ∉ R) ∧ (t ∉ E)).
  { rewrite app_assoc in Hnd. apply NoDup_app in Hnd as (_ & Hfresh & _).
    split; intros Hin; apply (Hfresh t);
      solve [apply elem_of_app; auto | by apply list_elem_of_singleton]. }
  destruct HtR as [HtR HtE].
  assert (Htop : t ∈ E ++ [t]).
  { apply elem_of_app. right. by apply list_elem_of_singleton. }
  split; [|split; [|split]].
  - by rewrite Hperm.
  - intros q. by rewrite length_settle, Hlen, Hperm.
  - intros q Hq. rewrite settle_other; [|by intros ->].
    apply Hpend, elem_of_app. by left.
  - intros q Hq. apply elem_of_app in Hq as [Hq|Hq].
    + rewrite settle_other; [by apply Hres|]. by intros ->.
    + apply list_elem_of_singleton in Hq. subst q.
      exists (js_or result VNull). split; [|apply js_or_null].
      by apply settle_pending, Hpend.
Qed.

Lemma heap_inv_dismiss st : heap_inv st → heap_inv (snd (dismiss st)).
Proof.
  intros (Hnd & Hlen & Hpend & Hres). rewrite dismiss_unfold.
  unfold heap_inv. simpl. rewrite resolved_app, resolved_stack, app_nil_r.
  split; [done|]. split; [|split].
  - intros q. by rewrite length_settle_all.
  - intros q Hq. by apply elem_of_nil in Hq.
  - intros q Hq. apply elem_of_app in Hq as [Hq|Hq].
    + rewrite settle_all_other; [by apply Hres|].
      apply NoDup_app in Hnd as (_ & Hfresh & _). by apply Hfresh.
    + exists VNull. split; [|by left].
      apply list_elem_of_fmap in Hq as (e & -> & Hin).
      apply settle_all_pending; [done|]. apply Hpend.
      apply list_elem_of_fmap. eauto.
Qed.

Lemma heap_inv_register producer st :
  heap_inv st → heap_inv (snd (register producer st)).
Proof.
  destruct (register_stack producer st) as (Hs & _ & Hp).
  destruct (register_trace producer st) as (Ht & _).
  unfold heap_inv. rewrite Hs, Hp, Ht, resolved_app. simpl.
  by rewrite app_nil_r.
Qed.

Lemma heap_inv_step st a : heap_inv st → heap_inv (step st a).
Proof.
  destruct a as [producer|f props|[] value|[]|]; simpl.
  - apply heap_inv_register.
  - apply (heap_inv_open (fn_key f)).
  - apply heap_inv_close.
  - apply heap_inv_dismiss.
  - done.
Qed.

Lemma heap_inv_exec acts st : heap_inv st → heap_inv (exec acts st).
Proof.
  revert st. induction acts as [|a acts IH]; intros st Hinv; [done|].
  simpl. apply IH. by apply heap_inv_step.
Qed.

(** X1: in every run of the provider from its initial state, [resolve] is
    called at most once on each executor. *)
Theorem resolve_called_at_most_once (acts : list Action) :
  NoDup (resolved (trace (exec acts init))).
Proof.
  destruct (heap_inv_exec acts init heap_inv_init) as (Hnd & _).
  by apply NoDup_app in Hnd as (Hnd & _).
Qed.

(** X2: as long as [close] is only given plain values, which are all that
    [JsValue] holds (no promise or other thenable), in every state the
    provider reaches a promise is pending exactly when its executor is in
    an entry of the stack. *)
Theorem pending_iff_on_stack (acts : list Action) (q : nat) :
  promises (exec acts init) !! q = Some Pending ↔
  q ∈ executor <$> panelExecutorStack (exec acts init).
Proof.
  destruct (heap_inv_exec acts init heap_inv_init) as (_ & Hlen & Hpend & Hres).
  split; [|apply Hpend].
  intros Hq. pose proof (lookup_lt_Some _ _ _ Hq) as Hlt.
  apply Hlen, elem_of_app in Hlt as [Hin|Hin]; [|done].
  destruct (Hres q Hin) as (v & Hv & _). congruence.
Qed.

(** X3: as long as [close] is only given plain values, which are all that
    [JsValue] holds (no promise or other thenable), in every state the
    provider reaches no promise is rejected, and a fulfilled promise holds
    [null] or a truthy value: never [undefined], [false], [0], [NaN] or the
    empty string. *)
Theorem settled_promises_hold_null_or_truthy (acts : list Action) (q : nat) :
  promises (exec acts init) !! q ≠ Some Rejected ∧
  (∀ v, promises (exec acts init) !! q = Some (Fulfilled v) →
        q ∈ resolved (trace (exec acts init)) ∧ (v = VNull ∨ truthy v = true)).
Proof.
  destruct (heap_inv_exec acts init heap_inv_init) as (_ & Hlen & Hpend & Hres).
  assert (Hcases : ∀ s, promises (exec acts init) !! q = Some s →
            s = Pending ∨
            (q ∈ resolved (trace (exec acts init)) ∧
             ∃ v, s = Fulfilled v ∧ (v = VNull ∨ truthy v = true))).
  { intros s Hs. pose proof (lookup_lt_Some _ _ _ Hs) as Hlt.
    apply Hlen, elem_of_app in Hlt as [Hin|Hin].
    - right. split; [done|]. destruct (Hres q Hin) as (v & Hv & Hok).
      exists v. split; [congruence|done].
    - left. apply Hpend in Hin. congruence. }
  split.
  - intros Hq. destruct (Hcases _ Hq) as [?|(_ & v & ? & _)]; congruence.
  - intros v Hq. destruct (Hcases _ Hq) as [?|(Hin & v' & Hv' & Hok)]; [congruence|].
    split; [done|]. congruence.
Qed.

Lemma settled_promises_hold_null_or_truthy_witness :
  let st := exec [AOpen openA VNull; AClose CloseArrow (VBoolean false)] init in
  promises st !! 0 = Some (Fulfilled VNull) ∧
  0 ∈ resolved (trace st) ∧ (VNull = VNull ∨ truthy VNull = true).
Proof.
  split; [reflexivity|].
  apply (settled_promises_hold_null_or_truthy
           [AOpen openA VNull; AClose CloseArrow (VBoolean false)] 0).
  reflexivity.
Defined.

(** X4: as long as [close] is only given plain values, which are all that
    [JsValue] holds (no promise or other thenable), after [dismiss], in
    whatever state the provider had reached, every promise that an open
    function ever returned is fulfilled: no caller is left waiting. *)
Theorem dismiss_leaves_nothing_pending (acts : list Action) :
  Forall (fun s => ∃ v, s = Fulfilled v)
         (promises (snd (dismiss (exec acts init)))).
Proof.
  pose proof (heap_inv_dismiss _ (heap_inv_exec acts init heap_inv_init))
    as (_ & Hlen & _ & Hres).
  apply Forall_lookup. intros q s Hs.
  pose proof (lookup_lt_Some _ _ _ Hs) as Hlt.
  apply Hlen in Hlt. rewrite dismiss_unfold in Hlt at 2. simpl in Hlt.
  rewrite app_nil_r in Hlt. destruct (Hres q Hlt) as (v & Hv & _).
  exists v. congruence.
Qed.

(** ** Last opened, first closed *)

Lemma exec_app acts1 acts2 st : exec (acts1 ++ acts2) st = exec acts2 (exec acts1 st).
Proof. apply foldl_app. Qed.

Lemma length_new_entries n calls : length (new_entries n calls) = length calls.
Proof. revert n. induction calls as [|c calls IH]; intros n; simpl; [done|]. by rewrite IH. Qed.

Lemma opens_push calls st :
  panelExecutorStack (exec (opens calls) st) =
    panelExecutorStack st ++ new_entries (length (promises st)) calls ∧
  resolved (trace (exec (opens calls) st)) = resolved (trace st) ∧
  panelRegistry (exec (opens calls) st) = panelRegistry st.
Proof.
  revert st. induction calls as [|c calls IH]; intros st.
  - simpl. by rewrite app_nil_r.
  - change (exec (opens (c :: calls)) st)
      with (exec (opens calls) (snd (open (fn_key c.1) (fn_producer c.1) c.2 st))).
    destruct (IH (snd (open (fn_key c.1) (fn_producer c.1) c.2 st))) as (Hs & Ht & Hr).
    rewrite Hs, Ht, Hr, open_unfold.
    cbn [snd panelExecutorStack trace panelRegistry promises new_entries].
    rewrite resolved_app, length_app. simpl.
    rewrite app_nil_r, <- app_assoc. simpl.
    by replace (length (promises st) + 1) with (S (length (promises st))) by lia.
Qed.

Lemma closes_pop values : ∀ news st base,
  length values = length news →
  panelExecutorStack st = base ++ news →
  panelExecutorStack (exec (closes values) st) = base ∧
  trace (exec (closes values) st) =
    trace st ++ zip_with (fun keyExecutor value =>
                            EvResolve (executor keyExecutor) (js_or value VNull))
                         (reverse news) values.
Proof.
  induction values as [|v values IH]; intros news st base Hlen Hstack.
  - destruct news; [|done]. simpl. rewrite app_nil_r in Hstack.
    by rewrite app_nil_r.
  - destruct news as [|top news _] using rev_ind; [done|].
    rewrite length_app in Hlen. simpl in Hlen.
    rewrite app_assoc in Hstack.
    change (exec (closes (v :: values)) st)
      with (exec (closes values) (snd (close v st))).
    destruct (IH news (snd (close v st)) base) as (Hs & Ht);
      [lia|by rewrite (close_snoc _ _ _ _ Hstack)|].
    rewrite Hs, Ht, (close_snoc _ _ _ _ Hstack).
    cbn [snd trace]. rewrite reverse_snoc. simpl. by rewrite <- app_assoc.
Qed.

(** X5: open functions called one after the other push their entries in
    that order on top of the stack; as many calls of [close] then pop them
    in the reverse order, the first value going to the panel opened last,
    and leave the stack as it was before the first open. *)
Theorem opens_then_closes_lifo (st : State)
    (calls : list (OpenPanelFunction * JsValue)) (values : list JsValue) :
  length values = length calls →
  let entries := new_entries (length (promises st)) calls in
  let st1 := exec (opens calls) st in
  let st2 := exec (opens calls ++ closes values) st in
  panelExecutorStack st1 = panelExecutorStack st ++ entries ∧
  panelExecutorStack st2 = panelExecutorStack st ∧
  trace st2 =
    trace st1 ++ zip_with (fun keyExecutor value =>
                             EvResolve (executor keyExecutor) (js_or value VNull))
                          (reverse entries) values.
Proof.
  intros Hlen entries st1 st2. subst st2. rewrite exec_app. fold st1.
  destruct (opens_push calls st) as (Hs & _). fold st1 in Hs. fold entries in Hs.
  split; [done|].
  apply closes_pop; [|done]. subst entries. by rewrite length_new_entries.
Qed.

Lemma opens_then_closes_lifo_witness :
  let calls := [(openA, VUndefined); (openB, VNull)] in
  let values := [VBoolean true; VNumber 0] in
  panelExecutorStack (exec (opens calls ++ closes values) init) = [] ∧
  resolved (trace (exec (opens calls ++ closes values) init)) = [1; 0] ∧
  promises (exec (opens calls ++ closes values) init)
    = [Fulfilled VNull; Fulfilled (VBoolean true)].
Proof.
  destruct (opens_then_closes_lifo init
              [(openA, VUndefined); (openB, VNull)] [VBoolean true; VNumber 0]
              eq_refl) as (_ & Hs & _).
  split; [exact Hs|]. split; reflexivity.
Defined.

(** ** The registry over whole runs *)

Lemma own_write (registry : Registry) k v :
  own (<[k := v]> registry) =
    match own registry !! k with
    | Some _ => <[k := v]> (own registry)
    | None => if String.eqb k "__proto__" then own registry
              else <[k := v]> (own registry)
    end.
Proof.
  change (<[k := v]> registry) with (registry_set k v registry). unfold registry_set.
  destruct (own registry !! k); [done|]. by destruct (String.eqb k "__proto__").
Qed.

Lemma registry_read_cases (registry : Registry) k v :
  registry !! k = Some v →
  own registry !! k = Some v ∨
  (own registry !! k = None ∧ inherited k = true ∧ v = ObjectMember k).
Proof.
  change (registry !! k) with (registry_get k registry). unfold registry_get.
  destruct (own registry !! k); [by left|].
  destruct (inherited k); [|done]. intros [= <-]. by right.
Qed.

Lemma registry_read_undefined (registry : Registry) k :
  registry !! k = None → own registry !! k = None ∧ inherited k = false.
Proof.
  change (registry !! k) with (registry_get k registry). unfold registry_get.
  destruct (own registry !! k); [done|]. by destruct (inherited k).
Qed.

Lemma registry_inv_ext st st' :
  panelRegistry st' = panelRegistry st → next_ref st' = next_ref st →
  registry_inv st → registry_inv st'.
Proof. unfold registry_inv. by intros -> ->. Qed.

Lemma registry_inv_register producer st :
  registry_inv st → registry_inv (snd (register producer st)).
Proof.
  intros Hinv.
  destruct (key_truthy (key (producer register_props))) eqn:Htruthy.
  2: { rewrite register_falsy_key by done. by apply (registry_inv_ext st). }
  destruct (key (producer register_props)) as [k|] eqn:Hk; [|done].
  apply key_truthy_Some in Htruthy.
  destruct (panelRegistry st !! k) as [v|] eqn:Hread.
  - rewrite (register_present _ _ _ _ Hk Htruthy Hread).
    destruct (registry_read_cases _ _ _ Hread) as [Hown|(Hown & Hinh & ->)].
    { apply (registry_inv_ext st); [simpl; by apply registry_write_own|done..]. }
    destruct Hinv as (Hkeys & Hrefs & Hall).
    unfold registry_inv. simpl. rewrite own_write, Hown.
    destruct (String.eqb k "__proto__"); [done|].
    split; [|split].
    + intros k' v'. rewrite lookup_insert. case_decide as Hkk.
      * intros [= <-]. by subst k'.
      * apply Hkeys.
    + intros k1 k2 f1 f2. rewrite !lookup_insert.
      repeat case_decide; try discriminate. apply Hrefs.
    + intros r Hr. destruct (Hall r Hr) as (k' & f & Hf & Href).
      exists k', f. split; [|done]. rewrite lookup_insert_ne; [done|].
      intros <-. congruence.
  - rewrite (register_absent _ _ _ Hk Htruthy Hread).
    destruct (registry_read_undefined _ _ Hread) as (Hown & Hinh).
    destruct Hinv as (Hkeys & Hrefs & Hall).
    unfold registry_inv. simpl. rewrite own_write, Hown.
    assert (String.eqb k "__proto__" = false) as ->.
    { apply String.eqb_neq. intros ->. discriminate Hinh. }
    split; [|split].
    + intros k' v'. rewrite lookup_insert. case_decide as Hkk.
      * intros [= <-]. subst k'. simpl. split; [done|]. split; [done|].
        split; [done|lia].
      * intros Hv'. destruct (Hkeys _ _ Hv') as (? & Hv). split; [done|].
        destruct v'; [|done]. destruct Hv as (? & ? & ?). repeat split; [done..|lia].
    + intros k1 k2 f1 f2. rewrite !lookup_insert.
      case_decide as H1; case_decide as H2.
      * congruence.
      * intros [= <-] Hf2. simpl. destruct (Hkeys _ _ Hf2) as (_ & _ & _ & Hlt). lia.
      * intros Hf1 [= <-]. simpl. destruct (Hkeys _ _ Hf1) as (_ & _ & _ & Hlt). lia.
      * apply Hrefs.
    + intros r Hr. destruct (decide (r = next_ref st)) as [->|Hne].
      * eexists k, _. rewrite lookup_insert_eq. done.
      * destruct (Hall r) as (k' & f & Hf & Href); [lia|].
        exists k', f. split; [|done]. rewrite lookup_insert_ne; [done|].
        intros <-. congruence.
Qed.

Lemma registry_inv_step st a : registry_inv st → registry_inv (step st a).
Proof.
  destruct a as [producer|f props|[] value|[]|]; unfold step.
  - apply registry_inv_register.
  - unfold call_open. rewrite open_unfold. by apply registry_inv_ext.
  - unfold call_close, close.
    destruct (pop (panelExecutorStack st)) as [[top|] stack]; [|done].
    by apply registry_inv_ext.
  - unfold call_dismiss. rewrite dismiss_unfold. by apply registry_inv_ext.
  - by apply registry_inv_ext.
Qed.

Lemma registry_inv_exec acts st : registry_inv st → registry_inv (exec acts st).
Proof.
  revert st. induction acts as [|a acts IH]; intros st Hinv; [done|].
  simpl. apply IH. by apply registry_inv_step.
Qed.

Lemma registry_inv_init : registry_inv init.
Proof.
  split; [|split]; simpl.
  - intros k v. by rewrite lookup_empty.
  - intros k1 k2 f1 f2. by rewrite lookup_empty.
  - intros r Hr. lia.
Qed.

(** X6: in every state the provider reaches, what a read of the registry
    gives under a key is an open function closed over that key, which is
    then not empty and no member name of [Object.prototype], or, for a
    member name, the member of [Object.prototype] of that name.  Two keys
    never give the same function object, and the function objects that
    [register] has made are exactly the ones the registry gives. *)
Theorem registry_functions (acts : list Action) :
  let st := exec acts init in
  (∀ k v, panelRegistry st !! k = Some v →
          match v with
          | OpenFn f => fn_key f = k ∧ k ≠ "" ∧ inherited k = false
          | ObjectMember name => name = k ∧ inherited k = true
          end) ∧
  (∀ k1 k2 f1 f2,
     panelRegistry st !! k1 = Some (OpenFn f1) →
     panelRegistry st !! k2 = Some (OpenFn f2) →
     fn_ref f1 = fn_ref f2 → k1 = k2) ∧
  (∀ r, r < next_ref st ↔
        ∃ k f, panelRegistry st !! k = Some (OpenFn f) ∧ fn_ref f = r).
Proof.
  destruct (registry_inv_exec acts init registry_inv_init) as (Hkeys & Hrefs & Hall).
  simpl. split; [|split].
  - intros k v Hread.
    destruct (registry_read_cases _ _ _ Hread) as [Hown|(_ & Hinh & ->)]; [|done].
    destruct (Hkeys _ _ Hown) as (Hne & Hv). destruct v; [|done].
    destruct Hv as (? & ? & _). done.
  - intros k1 k2 f1 f2 H1 H2. apply Hrefs; by apply registry_read_open_fn.
  - intros r. split.
    + intros Hr. destruct (Hall r Hr) as (k & f & Hown & Href).
      exists k, f. split; [|done].
      change (registry_get k (panelRegistry (exec acts init)) = Some (OpenFn f)).
      unfold registry_get. by rewrite Hown.
    + intros (k & f & Hread & <-). apply registry_read_open_fn in Hread.
      destruct (Hkeys _ _ Hread) as (_ & _ & _ & Hlt). done.
Qed.

Lemma registry_functions_witness :
  let st := exec [ARegister panelA; ARegister panelConstructor; ARegister panelA'] init in
  panelRegistry st !! "a" = Some (OpenFn openA) ∧
  panelRegistry st !! "constructor" = Some (ObjectMember "constructor") ∧
  fn_key openA = "a" ∧ inherited "constructor" = true ∧
  fn_ref openA < next_ref st.
Proof.
  destruct (registry_functions
              [ARegister panelA; ARegister panelConstructor; ARegister panelA'])
    as (Hkeys & _ & Hall).
  split; [reflexivity|]. split; [reflexivity|]. split; [|split].
  - apply (Hkeys "a" (OpenFn openA)). reflexivity.
  - apply (Hkeys "constructor" (ObjectMember "constructor")). reflexivity.
  - apply Hall. exists "a", openA. split; reflexivity.
Defined.

(** X7: [register] returns, and does not throw, exactly when the key of the
    produced element is truthy.  It then returns what the read of the
    registry gives under that key, an open function stored earlier or a
    member of [Object.prototype], and makes no function; only when the read
    gives [undefined] does it make a new function, closed over the key and
    the producer.  For a missing key and for the empty key alike it throws
    the error of line 167 and leaves registry, stack and promises as they
    were. *)
Theorem register_returns_iff_key_truthy (producer : RegisterPanelFunction) (st : State) :
  ((∃ v, fst (register producer st) = Return v) ↔
   key_truthy (key (producer register_props)) = true) ∧
  (∀ k, key (producer register_props) = Some k → k ≠ "" →
     match panelRegistry st !! k with
     | Some v =>
         fst (register producer st) = Return v ∧
         next_ref (snd (register producer st)) = next_ref st
     | None =>
         fst (register producer st) =
           Return (OpenFn {| fn_ref := next_ref st; fn_key := k;
                             fn_producer := producer |}) ∧
         next_ref (snd (register producer st)) = S (next_ref st)
     end) ∧
  (key_truthy (key (producer register_props)) = false →
   fst (register producer st) = Throw MissingPanelKeyError ∧
   panelRegistry (snd (register producer st)) = panelRegistry st ∧
   next_ref (snd (register producer st)) = next_ref st ∧
   panelExecutorStack (snd (register producer st)) = panelExecutorStack st ∧
   promises (snd (register producer st)) = promises st).
Proof.
  split; [|split].
  - destruct (key_truthy (key (producer register_props))) eqn:Htruthy.
    + split; [done|]. intros _.
      destruct (key (producer register_props)) as [k|] eqn:Hk; [|done].
      apply key_truthy_Some in Htruthy.
      destruct (register_returns producer st k Hk Htruthy) as (f & Hf & _). eauto.
    + rewrite register_falsy_key by done. simpl.
      split; [|done]. intros (f & Hf). discriminate Hf.
  - intros k Hk Hne. destruct (panelRegistry st !! k) as [v|] eqn:Hread.
    + by rewrite (register_present _ _ _ _ Hk Hne Hread).
    + by rewrite (register_absent _ _ _ Hk Hne Hread).
  - intros Htruthy. by rewrite register_falsy_key.
Qed.

Lemma register_returns_iff_key_truthy_witness :
  fst (register panelEmptyKey two_open) = Throw MissingPanelKeyError ∧
  panelRegistry (snd (register panelEmptyKey two_open)) = panelRegistry two_open ∧
  fst (register panelConstructor two_open) = Return (ObjectMember "constructor") ∧
  next_ref (snd (register panelConstructor two_open)) = next_ref two_open ∧
  ∃ v, fst (register panelC two_open) = Return v.
Proof.
  destruct (register_returns_iff_key_truthy panelEmptyKey two_open) as (_ & _ & Hthrow).
  destruct (Hthrow eq_refl) as (Ht & Hr & _).
  destruct (register_returns_iff_key_truthy panelConstructor two_open) as (_ & Hread & _).
  specialize (Hread "constructor" eq_refl). destruct Hread as (Hc & Hn); [discriminate|].
  destruct (register_returns_iff_key_truthy panelC two_open) as (Hiff & _).
  split; [exact Ht|]. split; [exact Hr|]. split; [exact Hc|]. split; [exact Hn|].
  apply Hiff. reflexivity.
Defined.

(** ** How [dismiss], [close] and the closing panel compose *)

(** X8: after [dismiss] a second [dismiss] returns and changes nothing at
    all, and the updater of a [close] throws the TypeError of the empty
    stack. *)
Theorem after_dismiss (st : State) (value : JsValue) :
  dismiss (snd (dismiss st)) = (Return tt, snd (dismiss st)) ∧
  fst (close value (snd (dismiss st))) = Throw TypeError.
Proof.
  split.
  - rewrite (dismiss_unfold (snd (dismiss st))). rewrite dismiss_unfold. simpl.
    by rewrite app_nil_r.
  - rewrite close_nil; [done|]. by rewrite dismiss_unfold.
Qed.

Lemma step_not_open_slot st a :
  is_open a = false → closingPanel (step st a) = closingPanel st.
Proof.
  intros Ha. destruct a as [producer|f props|[] value|[]|]; unfold step; try done.
  - by destruct (register_stack producer st) as (_ & -> & _).
  - unfold call_close, close.
    by destruct (pop (panelExecutorStack st)) as [[top|] stack].
  - unfold call_dismiss. by rewrite dismiss_unfold.
Qed.

Lemma slot_undefined_exec acts : ∀ st,
  inv st →
  closingPanel (exec acts st) = None ↔ closingPanel st = None ∧ no_open acts = true.
Proof.
  induction acts as [|a acts IH]; intros st Hinv; [simpl; tauto|].
  change (exec (a :: acts) st) with (exec acts (step st a)).
  rewrite (IH _ (inv_step _ a Hinv)).
  change (no_open (a :: acts)) with (negb (is_open a) && no_open acts).
  destruct (is_open a) eqn:Ha.
  - destruct a as [|f props| | |]; try discriminate Ha.
    unfold step, call_open. rewrite open_unfold. cbn [snd closingPanel negb andb].
    destruct Hinv as (_ & _ & Hslot). unfold slot_tracks_bottom in Hslot.
    destruct (panelExecutorStack st); [|rewrite Hslot]; split; intros []; discriminate.
  - by rewrite step_not_open_slot.
Qed.

(** X9: in a run from the initial state [closingPanel] is [undefined]
    exactly as long as no open function was called; once set it is never
    [undefined] again, whatever is closed or dismissed. *)
Theorem closingPanel_undefined_iff_no_open (acts : list Action) :
  closingPanel (exec acts init) = None ↔ no_open acts = true.
Proof.
  rewrite (slot_undefined_exec acts init inv_init). simpl. tauto.
Qed.

(** ** What the provider renders *)

(** X10: what the provider renders once the effect has run, in any state it
    reaches in a run in which no [close] met an empty stack.  The container
    is shown exactly while the stack is not empty, and then its children are
    the panels of all entries, bottom to top.  Hidden, it has a single
    child, [closingPanel]: an element once an open function has been called,
    [undefined] before.  Without a [position] prop the container is on the
    right, otherwise where the prop says. *)
Theorem rendered_container (props : PanelManagerContextProps) (acts : list Action) :
  faultless acts init = true →
  let st := useEffect (exec acts init) in
  let rendered := PanelManagerContextProvider props st in
  (cp_show (container rendered) = true ↔ panelExecutorStack st ≠ []) ∧
  (cp_show (container rendered) = true →
   children rendered =
     map (fun keyExecutor => Some (panel keyExecutor)) (panelExecutorStack st)) ∧
  (cp_show (container rendered) = false →
   children rendered = [closingPanel st] ∧
   (closingPanel st = None ↔ no_open acts = true)) ∧
  (position props = None → cp_position (container rendered) = Right) ∧
  (∀ p, position props = Some p → cp_position (container rendered) = p).
Proof.
  intros _ st rendered. subst rendered st.
  unfold PanelManagerContextProvider, useEffect, activePanels. simpl.
  pose proof (slot_undefined_exec acts init inv_init) as Hslot.
  destruct (panelExecutorStack (exec acts init)) as [|bottom stack] eqn:Hstack; simpl.
  - split; [split; [discriminate|done]|]. split; [discriminate|].
    split.
    + intros _. split; [done|]. rewrite Hslot. simpl. tauto.
    + split; [by intros ->|by intros p ->].
  - split; [done|]. split; [done|]. split; [discriminate|].
    split; [by intros ->|by intros p ->].
Qed.

Lemma rendered_container_witness :
  let shown := PanelManagerContextProvider (mkProps None) (useEffect two_open) in
  let hidden := PanelManagerContextProvider (mkProps (Some Left))
                  (useEffect (snd (dismiss two_open))) in
  cp_show (container shown) = true ∧
  children shown = [Some (panel entryA); Some (panel entryB)] ∧
  cp_position (container shown) = Right ∧
  cp_show (container hidden) = false ∧
  cp_position (container hidden) = Left ∧
  children hidden = [Some (panel entryA)].
Proof.
  destruct (rendered_container (mkProps None)
              [ARegister panelA; ARegister panelB;
               AOpen openA VUndefined; AEffect; AOpen openB VUndefined; AEffect]
              eq_refl)
    as (_ & Hshown & _ & Hright & _).
  destruct (rendered_container (mkProps (Some Left))
              [ARegister panelA; ARegister panelB;
               AOpen openA VUndefined; AEffect; AOpen openB VUndefined; AEffect;
               ADismiss DismissRef]
              eq_refl)
    as (_ & _ & Hhidden & _ & Hleft).
  split; [reflexivity|]. split; [exact (Hshown eq_refl)|].
  split; [exact (Hright eq_refl)|]. split; [reflexivity|].
  split; [exact (Hleft Left eq_refl)|].
  destruct (Hhidden eq_refl) as [Hchildren _]. exact Hchildren.
Defined.

(** X11: the style sheet of the container, for all props.  No property is
    declared twice; the container is anchored to exactly one edge, the left
    one for [Left] and the right one for [Right]; shown it is not moved and
    opaque, hidden it is moved out by its full width across its own edge,
    faded and without shadow. *)
Theorem container_style (props : ContainerProps) :
  let css := Container props in
  NoDup (map fst css) ∧
  (css_value "left" css = Some "0" ↔ cp_position props = Left) ∧
  (css_value "right" css = Some "0" ↔ cp_position props = Right) ∧
  (css_value "left" css = None ∨ css_value "right" css = None) ∧
  (cp_show props = true →
   css_value "transform" css = Some "translateX(0)" ∧
   css_value "opacity" css = Some "1") ∧
  (cp_show props = false →
   css_value "transform" css =
     Some (match cp_position props with
           | Left => "translateX(-100%)"
           | Right => "translateX(100%)"
           end) ∧
   css_value "opacity" css = Some "0.25" ∧
   css_value "box-shadow" css =
     Some (match cp_position props with
           | Left => "3px 1px 4px rgba(0, 0, 0, 0)"
           | Right => "-3px 1px 4px rgba(0, 0, 0, 0)"
           end)).
Proof.
  destruct props as [[] []]; simpl;
    (split; [apply (bool_decide_unpack _); vm_compute; exact I|]);
    vm_compute; repeat split; intros; try discriminate; try reflexivity; auto.
Qed.

Lemma container_style_witness :
  css_value "transform" (Container (mkContainerProps false Left))
    = Some "translateX(-100%)" ∧
  css_value "transform" (Container (mkContainerProps true Right))
    = Some "translateX(0)".
Proof.
  destruct (container_style (mkContainerProps false Left)) as (_ & _ & _ & _ & _ & Hhidden).
  destruct (container_style (mkContainerProps true Right)) as (_ & _ & _ & _ & Hshown & _).
  split; [apply (Hhidden eq_refl)|apply (Hshown eq_refl)].
Defined.

(** ** Accounting over whole runs *)

Lemma produced_app t1 t2 : produced (t1 ++ t2) = produced t1 ++ produced t2.
Proof. apply omap_app. Qed.

Lemma produced_resolves (stack : list PanelExecutor) :
  produced (map (fun keyExecutor => EvResolve (executor keyExecutor) VNull) stack) = [].
Proof. by induction stack. Qed.

Lemma produced_step st a :
  produced (trace (step st a)) = produced (trace st) ++ producer_calls [a].
Proof.
  destruct a as [producer|f props|[] value|[]|]; unfold step.
  - destruct (register_trace producer st) as (-> & _). by rewrite produced_app.
  - unfold call_open. rewrite open_unfold. simpl. by rewrite produced_app.
  - unfold call_close, close.
    destruct (pop (panelExecutorStack st)) as [[top|] stack]; simpl;
      rewrite ?produced_app; simpl; by rewrite ?app_nil_r.
  - unfold call_dismiss. rewrite dismiss_unfold. simpl.
    by rewrite produced_app, produced_resolves.
  - simpl. by rewrite app_nil_r.
Qed.

(** X13: over a run from the initial state the panel producers are called
    once for every call of [register], with the placeholder props, also
    when it throws or finds the key registered, and once for every call of
    an open function, with the props of that call, in the order of the
    calls; [close], [dismiss] and the effect call no producer. *)
Theorem producers_called_once_per_call (acts : list Action) :
  produced (trace (exec acts init)) = producer_calls acts.
Proof.
  assert (H : ∀ st, produced (trace (exec acts st))
                    = produced (trace st) ++ producer_calls acts).
  { induction acts as [|a acts IH]; intros st; [by rewrite app_nil_r|].
    change (exec (a :: acts) st) with (exec acts (step st a)).
    rewrite IH, produced_step, <- app_assoc. f_equal.
    unfold producer_calls. by rewrite <- omap_app. }
  by rewrite H.
Qed.

Lemma length_covering (l : list nat) (n : nat) :
  NoDup l → (∀ q, q < n ↔ q ∈ l) → length l = n.
Proof.
  intros Hnd Hcover.
  assert (Hperm : l ≡ₚ seq 0 n).
  { apply NoDup_Permutation; [done|apply NoDup_seq|].
    intros q. rewrite <- Hcover, elem_of_seq. lia. }
  by rewrite Hperm, length_seq.
Qed.

(** X14: in every state the provider reaches, the promises made are as many
    as the calls of [resolve] so far and the entries of the stack together:
    each promise is either resolved or still on the stack. *)
Theorem promises_accounted_for (acts : list Action) :
  let st := exec acts init in
  length (promises st) =
    length (resolved (trace st)) + length (panelExecutorStack st).
Proof.
  destruct (heap_inv_exec acts init heap_inv_init) as (Hnd & Hlen & _).
  simpl. rewrite <- (length_covering _ _ Hnd Hlen), length_app. by rewrite length_fmap.
Qed.
